(** * scandir: directory iteration and tree walking

    A shallow embedding of [scandir.py] (version 0.2): the three platform
    branches of [scandir] and [DirEntry] (Windows, POSIX, fallback) and the
    shared [walk] generator, followed by the properties proved about them.

    Conventions of the embedding.
    - The operating system is an explicit [world] value threaded through
      every call; each native call appends to a trace, so that "how many
      times was X called" is a statement about the trace.
    - A Python generator is a state machine: a state type, a [next]
      function (one [__next__] call) and a [close] function (what happens
      when the generator is closed or collected while suspended).
    - A [DirEntry] is mutable in Python ([_lstat] is filled lazily); here
      each method returns the updated entry.
    - Text ([str]) and byte strings are both carried by [string]; where
      the code converts between the two ([path.encode], [d_name.decode])
      the model applies the codec of the world, which may fail.
    - Time stamps (floating point) are left out of [stat_result].
    - The recursion limit of the interpreter is not modelled (where a
      [RecursionError] is raised depends on how the interpreter and its
      library count frames): [fuel] bounds the recursion instead, and a
      run that exhausts it ends as [OutOfFuel].  No statement below says
      that a walk can end only in the ways listed here. *)

From Stdlib Require Import ZArith Lia.
From stdpp Require Import base option list gmap strings.

Local Open Scope string_scope.
Local Open Scope Z_scope.

(** ** Values shared by all platforms *)

(** [OSError(errno, strerror)] with its [filename] attribute.  Windows'
    [WindowsError] is a subclass of [OSError] and is carried the same way,
    [os_errno] holding the Win32 error code. *)
Record oserror := OsErr { os_errno : Z; os_filename : string }.

(** The exceptions that the code raises or lets through.  [UnicodeEncodeError]
    and [UnicodeDecodeError] carry the object that could not be converted;
    [OtherException] stands for an exception of any other class, which only
    code supplied by the caller (the error handler of [walk]) raises. *)
Inductive exn :=
| OSError (e : oserror)
| NameError (name : string)
| UnicodeEncodeError (object : string)
| UnicodeDecodeError (object : string)
| OtherException (class : string).

(** A byte string, as [opendir] takes one and [readdir_r] fills one in. *)
Definition bytes := string.

(** A codec under the default (strict) error handling: [text.encode(c)]
    and [data.decode(c)], [None] standing for the [UnicodeEncodeError] or
    [UnicodeDecodeError] raised on an object the codec cannot convert. *)
Record codec := Codec {
  cd_encode : string -> option bytes;
  cd_decode : bytes -> option string }.

(** Outcome of one [__next__] call on a generator. *)
Inductive step (A : Type) :=
| Yielded (a : A)
| StopIteration
| Raised (e : exn).
Arguments Yielded {A} a.
Arguments StopIteration {A}.
Arguments Raised {A} e.

(** The fields of [os.stat_result] that the code reads or writes. *)
Record stat_result := Stat {
  st_mode : Z; st_ino : Z; st_dev : Z; st_nlink : Z;
  st_uid : Z; st_gid : Z; st_size : Z }.

(** Constants of the [stat] module. *)
Definition S_IFDIR : Z := 0x4000.   (* 0o040000 *)
Definition S_IFREG : Z := 0x8000.   (* 0o100000 *)
Definition S_IFLNK : Z := 0xA000.   (* 0o120000 *)
(** The mask written [0o170000] in the source. *)
Definition S_IFMT_mask : Z := 0xF000.

(** Classification of a file from the mode bits of a status record, as
    written at the end of every [is*] method. *)
Definition mode_isdir (st : stat_result) : bool :=
  Z.land (st_mode st) S_IFMT_mask =? S_IFDIR.
Definition mode_isfile (st : stat_result) : bool :=
  Z.land (st_mode st) S_IFMT_mask =? S_IFREG.
Definition mode_islink (st : stat_result) : bool :=
  Z.land (st_mode st) S_IFMT_mask =? S_IFLNK.

(** [name not in ('.', '..')] *)
Definition not_dot (name : string) : bool :=
  negb (String.eqb name "." || String.eqb name "..").

(** ** The words of the specification

    What the specification calls the two pseudo-entries, and what it means
    by the type of a file as read off the mode bits of a status record
    ([S_ISDIR], [S_ISREG], [S_ISLNK] of POSIX).  These are stated on their
    own, not through the tests the code makes; the statements below compare
    the code with them. *)
Module Spec.
Definition pseudo_entry (name : string) : Prop := name = "." \/ name = "..".
#[global] Instance pseudo_entry_dec name : Decision (pseudo_entry name) :=
  decide (name = "." \/ name = "..").

(** The names of a listing with the pseudo-entries left out. *)
Definition without_pseudo_entries (names : list string) : list string :=
  filter (fun name => ~ pseudo_entry name) names.

Inductive file_type := Directory | Regular | SymLink.

(** The file-type field of a mode, [mode & 0o170000], and the value it
    has for each type: [0o040000], [0o100000], [0o120000]. *)
Definition type_bits (t : file_type) : Z :=
  match t with
  | Directory => 0x4000
  | Regular => 0x8000
  | SymLink => 0xA000
  end.
Definition has_type (t : file_type) (st : stat_result) : Prop :=
  Z.land (st_mode st) 0xF000 = type_bits t.
#[global] Instance has_type_dec t st : Decision (has_type t st) :=
  decide (Z.land (st_mode st) 0xF000 = type_bits t).
End Spec.

(** ** The POSIX branch (Linux, OS X, BSD) *)
Module Posix.

Record dirent := Dirent { d_type : Z; d_name : bytes }.

Definition DT_UNKNOWN : Z := 0.
Definition DT_DIR : Z := 4.
Definition DT_REG : Z := 8.
Definition DT_LNK : Z := 10.

(** What one [readdir_r] call on an open stream will do: fill in an entry,
    or return a non-zero code ([RdFail]; its argument is the value
    [ctypes.get_errno()] has afterwards).  When the list is used up,
    [readdir_r] returns 0 with a null result. *)
Inductive read_step :=
| RdEntry (e : dirent)
| RdFail (errno_after : Z).

(** An open directory stream: the reads still to come, and what
    [closedir] will answer ([None]: 0, [Some e]: failure, errno [e]). *)
Record dirstream := DirStream {
  ds_reads : list read_step;
  ds_close : option Z }.

Definition DIR_p := positive.

Inductive syscall :=
| Opendir (path : bytes) (res : option DIR_p)
| Readdir (dir_p : DIR_p)
| Closedir (dir_p : DIR_p)
| Lstat (path : string).

(** The operating system as the code sees it. *)
Record world := World {
  file_system_encoding : codec;          (* [sys.getfilesystemencoding()] *)
  w_opendir : bytes -> Z + dirstream;    (* errno, or the stream opened *)
  w_lstat : string -> Z + stat_result;   (* errno, or the status *)
  w_open : gmap positive dirstream;      (* the open DIR* table *)
  w_fresh : DIR_p;                       (* next handle to hand out *)
  w_errno : Z;                           (* [ctypes.get_errno()] *)
  w_trace : list syscall }.              (* native calls, latest first *)

Definition log (c : syscall) (w : world) : world :=
  World (file_system_encoding w) (w_opendir w) (w_lstat w) (w_open w)
        (w_fresh w) (w_errno w) (c :: w_trace w).
Definition set_errno (e : Z) (w : world) : world :=
  World (file_system_encoding w) (w_opendir w) (w_lstat w) (w_open w)
        (w_fresh w) e (w_trace w).
Definition set_open (t : gmap positive dirstream) (w : world) : world :=
  World (file_system_encoding w) (w_opendir w) (w_lstat w) t (w_fresh w)
        (w_errno w) (w_trace w).
Definition bump_fresh (w : world) : world :=
  World (file_system_encoding w) (w_opendir w) (w_lstat w) (w_open w)
        (Pos.succ (w_fresh w)) (w_errno w) (w_trace w).

Definition EBADF : Z := 9.

(** [opendir]: a null pointer ([None]) with errno set, or a fresh handle. *)
Definition opendir (path : bytes) (w : world) : option DIR_p * world :=
  match w_opendir w path with
  | inl e => (None, log (Opendir path None) (set_errno e w))
  | inr s =>
      let h := w_fresh w in
      (Some h,
       log (Opendir path (Some h))
           (bump_fresh (set_open (<[h := s]> (w_open w)) w)))
  end.

Inductive read_result :=
| ReadError              (* non-zero return value *)
| ReadEnd                (* 0, result is null *)
| ReadEntry (e : dirent) (* 0, entry filled in *).

Definition readdir_r (dir_p : DIR_p) (w : world) : read_result * world :=
  let w := log (Readdir dir_p) w in
  match w_open w !! dir_p with
  | None => (ReadError, set_errno EBADF w)
  | Some s =>
      match ds_reads s with
      | [] => (ReadEnd, w)
      | RdEntry e :: rest =>
          (ReadEntry e,
           set_open (<[dir_p := DirStream rest (ds_close s)]> (w_open w)) w)
      | RdFail e :: rest =>
          (ReadError,
           set_errno e
             (set_open (<[dir_p := DirStream rest (ds_close s)]> (w_open w))
                       w))
      end
  end.

(** [closedir]: [true] when the return value is non-zero. *)
Definition closedir (dir_p : DIR_p) (w : world) : bool * world :=
  let w := log (Closedir dir_p) w in
  match w_open w !! dir_p with
  | None => (true, set_errno EBADF w)
  | Some s =>
      let w := set_open (delete dir_p (w_open w)) w in
      match ds_close s with
      | None => (false, w)
      | Some e => (true, set_errno e w)
      end
  end.

(** [os.lstat]: raises [OSError] for the path, or returns the status. *)
Definition os_lstat (path : string) (w : world)
  : (oserror + stat_result) * world :=
  let w := log (Lstat path) w in
  match w_lstat w path with
  | inl e => (inl (OsErr e path), w)
  | inr st => (inr st, w)
  end.

(** [os.path.join] of [posixpath], for two components. *)
Definition ends_with_slash (a : string) : bool :=
  match String.get (String.length a - 1)%nat a with
  | Some c => if Ascii.eqb c (Ascii.ascii_of_nat 47) (* the character / *) then true else false
  | None => false
  end.
Definition join (a b : string) : string :=
  if String.prefix "/" b then b
  else if String.eqb a "" || ends_with_slash a then a +:+ b
  else a +:+ "/" +:+ b.

(** *** [DirEntry] *)

Record DirEntry := mkDirEntry {
  _path : string;
  name : string;
  dirent_of : dirent;              (* the [dirent] slot *)
  _lstat : option stat_result }.

(** [DirEntry(path, name, dirent)] *)
Definition DirEntry_init (path name : string) (d : dirent) : DirEntry :=
  mkDirEntry path name d None.

Definition set_lstat (self : DirEntry) (st : stat_result) : DirEntry :=
  mkDirEntry (_path self) (name self) (dirent_of self) (Some st).

Definition lstat (self : DirEntry) (w : world)
  : (oserror + stat_result) * DirEntry * world :=
  match _lstat self with
  | Some st => (inr st, self, w)
  | None =>
      match os_lstat (join (_path self) (name self)) w with
      | (inl e, w1) => (inl e, self, w1)
      | (inr st, w1) => (inr st, set_lstat self st, w1)
      end
  end.

(** The three [is*] methods differ only in the constants compared with;
    [classify] is their common body, after which each is stated. *)
Definition classify (dt : Z) (by_mode : stat_result -> bool)
           (self : DirEntry) (w : world) : bool * DirEntry * world :=
  let d_type := d_type (dirent_of self) in
  if negb (d_type =? DT_UNKNOWN) then (d_type =? dt, self, w)
  else
    match lstat self w with
    | (inl _, self1, w1) => (false, self1, w1)
    | (inr st, self1, w1) => (by_mode st, self1, w1)
    end.

Definition isdir := classify DT_DIR mode_isdir.
Definition isfile := classify DT_REG mode_isfile.
Definition islink := classify DT_LNK mode_islink.

Definition posix_error (filename : string) (w : world) : exn :=
  OSError (OsErr (w_errno w) filename).

(** *** [scandir] *)

(** Where the generator is suspended. *)
Inductive scan_state :=
| ScanStart (path : string)                  (* created, body not entered *)
| ScanLoop (path : string) (dir_p : DIR_p)   (* at the [yield], in [try] *)
| ScanDone.                                  (* returned or raised *)

Definition scandir (path : string) : scan_state := ScanStart path.

(** The [finally] clause: [closedir], whose failure replaces whatever was
    leaving the [try] block. *)
Definition finally_close {A} (path : string) (dir_p : DIR_p)
           (leaving : step A) (w : world) : step A * scan_state * world :=
  match closedir dir_p w with
  | (true, w1) => (Raised (posix_error path w1), ScanDone, w1)
  | (false, w1) => (leaving, ScanDone, w1)
  end.

(** The [while True] loop, run until the next [yield] or until the
    generator is left.  A name that does not decode raises
    [UnicodeDecodeError] inside the [try], so the [finally] clause runs.
    [fuel] bounds the number of [readdir_r] calls; the caller passes one
    more than the number of reads the stream holds. *)
Fixpoint scandir_loop (fuel : nat) (path : string) (dir_p : DIR_p)
         (w : world) : step DirEntry * scan_state * world :=
  match fuel with
  | O => (StopIteration, ScanLoop path dir_p, w)
  | S fuel =>
      match readdir_r dir_p w with
      | (ReadError, w1) =>
          finally_close path dir_p (Raised (posix_error path w1)) w1
      | (ReadEnd, w1) => finally_close path dir_p StopIteration w1
      | (ReadEntry entry, w1) =>
          match cd_decode (file_system_encoding w1) (d_name entry) with
          | None =>
              finally_close path dir_p
                (Raised (UnicodeDecodeError (d_name entry))) w1
          | Some name =>
              if not_dot name
              then (Yielded (DirEntry_init path name entry),
                    ScanLoop path dir_p, w1)
              else scandir_loop fuel path dir_p w1
          end
      end
  end.

Definition pending (dir_p : DIR_p) (w : world) : nat :=
  match w_open w !! dir_p with
  | Some s => length (ds_reads s)
  | None => O
  end.

(** One [__next__] call.  The first one evaluates
    [path.encode(file_system_encoding)] before it calls [opendir]. *)
Definition scandir_next (g : scan_state) (w : world)
  : step DirEntry * scan_state * world :=
  match g with
  | ScanStart path =>
      match cd_encode (file_system_encoding w) path with
      | None => (Raised (UnicodeEncodeError path), ScanDone, w)
      | Some encoded =>
          match opendir encoded w with
          | (None, w1) => (Raised (posix_error path w1), ScanDone, w1)
          | (Some dir_p, w1) =>
              scandir_loop (S (pending dir_p w1)) path dir_p w1
          end
      end
  | ScanLoop path dir_p =>
      scandir_loop (S (pending dir_p w)) path dir_p w
  | ScanDone => (StopIteration, ScanDone, w)
  end.

(** [close()], also run when a suspended generator is collected:
    [GeneratorExit] is raised at the [yield], so the [finally] clause
    runs.  The result is the exception that escapes [close()], if any. *)
Definition scandir_close (g : scan_state) (w : world)
  : option exn * scan_state * world :=
  match g with
  | ScanStart _ => (None, ScanDone, w)
  | ScanLoop path dir_p =>
      match closedir dir_p w with
      | (true, w1) => (Some (posix_error path w1), ScanDone, w1)
      | (false, w1) => (None, ScanDone, w1)
      end
  | ScanDone => (None, ScanDone, w)
  end.

End Posix.

(** ** The Windows branch *)
Module Win32.

Definition ERROR_FILE_NOT_FOUND : Z := 2.
Definition ERROR_INVALID_HANDLE : Z := 6.
Definition ERROR_NO_MORE_FILES : Z := 18.
Definition FILE_ATTRIBUTE_READONLY : Z := 1.
Definition FILE_ATTRIBUTE_DIRECTORY : Z := 16.
Definition FILE_ATTRIBUTE_REPARSE_POINT : Z := 1024.

(** The fields of [WIN32_FIND_DATAW] that the code reads (the three
    FILETIME fields only feed the time stamps). *)
Record WIN32_FIND_DATAW := FindData {
  dwFileAttributes : Z;
  nFileSizeHigh : Z;
  nFileSizeLow : Z;
  cFileName : string }.

(** [find_data_to_stat]: Win32 FIND_DATA to [stat_result]. *)
Definition find_data_to_stat (data : WIN32_FIND_DATAW) : stat_result :=
  let attributes := dwFileAttributes data in
  let st_mode := 0 in
  let st_mode :=
    if negb (Z.land attributes FILE_ATTRIBUTE_DIRECTORY =? 0)
    then Z.lor st_mode (Z.lor S_IFDIR 0x49 (* 0o111 *))
    else Z.lor st_mode S_IFREG in
  let st_mode :=
    if negb (Z.land attributes FILE_ATTRIBUTE_READONLY =? 0)
    then Z.lor st_mode 0x124 (* 0o444 *)
    else Z.lor st_mode 0x1B6 (* 0o666 *) in
  let st_mode :=
    if negb (Z.land attributes FILE_ATTRIBUTE_REPARSE_POINT =? 0)
    then Z.lor st_mode S_IFLNK
    else st_mode in
  let st_size := Z.lor (Z.shiftl (nFileSizeHigh data) 32)
                       (nFileSizeLow data) in
  Stat st_mode 0 0 0 0 0 st_size.

(** *** [DirEntry] *)

Record DirEntry := mkDirEntry {
  name : string;
  _lstat : option stat_result;
  _find_data : WIN32_FIND_DATAW }.

(** [DirEntry(name, find_data)] *)
Definition DirEntry_init (name : string) (find_data : WIN32_FIND_DATAW)
  : DirEntry := mkDirEntry name None find_data.

(** [lstat] makes no native call: it converts the find data, once. *)
Definition lstat (self : DirEntry) : stat_result * DirEntry :=
  match _lstat self with
  | Some st => (st, self)
  | None =>
      let st := find_data_to_stat (_find_data self) in
      (st, mkDirEntry (name self) (Some st) (_find_data self))
  end.

Definition isdir (self : DirEntry) : bool :=
  negb (Z.land (dwFileAttributes (_find_data self))
               FILE_ATTRIBUTE_DIRECTORY =? 0).
Definition isfile (self : DirEntry) : bool :=
  Z.land (dwFileAttributes (_find_data self)) FILE_ATTRIBUTE_DIRECTORY =? 0.
Definition islink (self : DirEntry) : bool :=
  negb (Z.land (dwFileAttributes (_find_data self))
               FILE_ATTRIBUTE_REPARSE_POINT =? 0).

(** *** The native find calls *)

(** An open find handle: the records [FindNextFile] will still fill in,
    the error code it reports once they are used up (18 when the
    directory has simply ended), and what [FindClose] will answer
    ([None]: success, [Some e]: failure, last error [e]). *)
Record find_stream := FindStream {
  fs_rest : list WIN32_FIND_DATAW;
  fs_end : Z;
  fs_close : option Z }.

Definition HANDLE := positive.

Inductive syscall :=
| FindFirst (filename : string) (res : option HANDLE)
| FindNext (h : HANDLE)
| FindClosed (h : HANDLE).

Record world := World {
  (* error code, or the first record and the handle's stream *)
  w_find : string -> Z + (WIN32_FIND_DATAW * find_stream);
  w_open : gmap positive find_stream;
  w_fresh : HANDLE;
  w_last_error : Z;
  w_trace : list syscall }.

Definition log (c : syscall) (w : world) : world :=
  World (w_find w) (w_open w) (w_fresh w) (w_last_error w) (c :: w_trace w).
Definition set_last_error (e : Z) (w : world) : world :=
  World (w_find w) (w_open w) (w_fresh w) e (w_trace w).
Definition set_open (t : gmap positive find_stream) (w : world) : world :=
  World (w_find w) t (w_fresh w) (w_last_error w) (w_trace w).
Definition bump_fresh (w : world) : world :=
  World (w_find w) (w_open w) (Pos.succ (w_fresh w)) (w_last_error w)
        (w_trace w).

(** [FindFirstFile]: [None] stands for [INVALID_HANDLE_VALUE]. *)
Definition FindFirstFile (filename : string) (w : world)
  : option (HANDLE * WIN32_FIND_DATAW) * world :=
  match w_find w filename with
  | inl e => (None, log (FindFirst filename None) (set_last_error e w))
  | inr (data, s) =>
      let h := w_fresh w in
      (Some (h, data),
       log (FindFirst filename (Some h))
           (bump_fresh (set_open (<[h := s]> (w_open w)) w)))
  end.

(** [FindNextFile]: [None] when the call returns false. *)
Definition FindNextFile (h : HANDLE) (w : world)
  : option WIN32_FIND_DATAW * world :=
  let w := log (FindNext h) w in
  match w_open w !! h with
  | None => (None, set_last_error ERROR_INVALID_HANDLE w)
  | Some s =>
      match fs_rest s with
      | [] => (None, set_last_error (fs_end s) w)
      | data :: rest =>
          (Some data,
           set_open (<[h := FindStream rest (fs_end s) (fs_close s)]>
                       (w_open w)) w)
      end
  end.

(** [FindClose]: [true] on success. *)
Definition FindClose (h : HANDLE) (w : world) : bool * world :=
  let w := log (FindClosed h) w in
  match w_open w !! h with
  | None => (false, set_last_error ERROR_INVALID_HANDLE w)
  | Some s =>
      let w := set_open (delete h (w_open w)) w in
      match fs_close s with
      | None => (true, w)
      | Some e => (false, set_last_error e w)
      end
  end.

(** [os.path.join] of [ntpath], for a second component that is relative
    and has no drive (as the wildcard is). *)
Definition ends_with_sep (a : string) : bool :=
  match String.get (String.length a - 1)%nat a with
  | Some c =>
      Ascii.eqb c (Ascii.ascii_of_nat 92) (* backslash *)
      || Ascii.eqb c (Ascii.ascii_of_nat 47) (* slash *)
      || Ascii.eqb c (Ascii.ascii_of_nat 58) (* colon *)
  | None => false
  end.
Definition join (a b : string) : string :=
  if String.eqb a "" || ends_with_sep a then a +:+ b
  else a +:+ String (Ascii.ascii_of_nat 92) b.

Definition win_error (error : Z) (filename : string) : exn :=
  OSError (OsErr error filename).

(** *** [scandir] *)

Inductive scan_state :=
| ScanStart (path windows_wildcard : string)
| ScanLoop (path : string) (handle : HANDLE)
| ScanDone.

Definition scandir (path windows_wildcard : string) : scan_state :=
  ScanStart path windows_wildcard.

(** The [finally] clause. *)
Definition finally_close {A} (path : string) (handle : HANDLE)
           (leaving : step A) (w : world) : step A * scan_state * world :=
  match FindClose handle w with
  | (false, w1) => (Raised (win_error (w_last_error w1) path), ScanDone, w1)
  | (true, w1) => (leaving, ScanDone, w1)
  end.

(** The loop from just after the name test: [FindNextFile], the test of
    its result, and the name test of the following iteration.  [fuel]
    bounds the number of [FindNextFile] calls. *)
Fixpoint scandir_loop (fuel : nat) (path : string) (handle : HANDLE)
         (w : world) : step DirEntry * scan_state * world :=
  match fuel with
  | O => (StopIteration, ScanLoop path handle, w)
  | S fuel =>
      match FindNextFile handle w with
      | (None, w1) =>
          let error := w_last_error w1 in
          if error =? ERROR_NO_MORE_FILES
          then finally_close path handle StopIteration w1
          else finally_close path handle (Raised (win_error error path)) w1
      | (Some data, w1) =>
          let name := cFileName data in
          if not_dot name
          then (Yielded (DirEntry_init name data), ScanLoop path handle, w1)
          else scandir_loop fuel path handle w1
      end
  end.

Definition pending (h : HANDLE) (w : world) : nat :=
  match w_open w !! h with
  | Some s => length (fs_rest s)
  | None => O
  end.

Definition scandir_next (g : scan_state) (w : world)
  : step DirEntry * scan_state * world :=
  match g with
  | ScanStart path windows_wildcard =>
      let filename := join path windows_wildcard in
      match FindFirstFile filename w with
      | (None, w1) =>
          let error := w_last_error w1 in
          if error =? ERROR_FILE_NOT_FOUND
          then (* No files, don't yield anything *)
            (StopIteration, ScanDone, w1)
          else (Raised (win_error error path), ScanDone, w1)
      | (Some (handle, data), w1) =>
          let name := cFileName data in
          if not_dot name
          then (Yielded (DirEntry_init name data), ScanLoop path handle, w1)
          else scandir_loop (S (pending handle w1)) path handle w1
      end
  | ScanLoop path handle =>
      scandir_loop (S (pending handle w)) path handle w
  | ScanDone => (StopIteration, ScanDone, w)
  end.

Definition scandir_close (g : scan_state) (w : world)
  : option exn * scan_state * world :=
  match g with
  | ScanStart _ _ => (None, ScanDone, w)
  | ScanLoop path handle =>
      match FindClose handle w with
      | (false, w1) => (Some (win_error (w_last_error w1) path), ScanDone, w1)
      | (true, w1) => (None, ScanDone, w1)
      end
  | ScanDone => (None, ScanDone, w)
  end.

End Win32.

(** ** The fallback branch: no [d_type], no find data *)
Module Fallback.

Inductive syscall :=
| Listdir (path : string)
| Lstat (path : string).

Record world := World {
  w_listdir : string -> Z + list string;  (* errno, or [os.listdir]'s list *)
  w_lstat : string -> Z + stat_result;
  w_trace : list syscall }.

Definition log (c : syscall) (w : world) : world :=
  World (w_listdir w) (w_lstat w) (c :: w_trace w).

Definition os_listdir (path : string) (w : world)
  : (oserror + list string) * world :=
  let w := log (Listdir path) w in
  match w_listdir w path with
  | inl e => (inl (OsErr e path), w)
  | inr names => (inr names, w)
  end.

Definition os_lstat (path : string) (w : world)
  : (oserror + stat_result) * world :=
  let w := log (Lstat path) w in
  match w_lstat w path with
  | inl e => (inl (OsErr e path), w)
  | inr st => (inr st, w)
  end.

Record DirEntry := mkDirEntry {
  _path : string;
  name : string;
  _lstat : option stat_result }.

Definition DirEntry_init (path name : string) : DirEntry :=
  mkDirEntry path name None.

Definition lstat (self : DirEntry) (w : world)
  : (oserror + stat_result) * DirEntry * world :=
  match _lstat self with
  | Some st => (inr st, self, w)
  | None =>
      match os_lstat (Posix.join (_path self) (name self)) w with
      | (inl e, w1) => (inl e, self, w1)
      | (inr st, w1) =>
          (inr st, mkDirEntry (_path self) (name self) (Some st), w1)
      end
  end.

Definition classify (by_mode : stat_result -> bool)
           (self : DirEntry) (w : world) : bool * DirEntry * world :=
  match lstat self w with
  | (inl _, self1, w1) => (false, self1, w1)
  | (inr st, self1, w1) => (by_mode st, self1, w1)
  end.

Definition isdir := classify mode_isdir.
Definition isfile := classify mode_isfile.
Definition islink := classify mode_islink.

(** [for name in os.listdir(path): yield DirEntry(path, name)] *)
Inductive scan_state :=
| ScanStart (path : string)
| ScanIter (path : string) (names : list string)
| ScanDone.

Definition scandir (path : string) : scan_state := ScanStart path.

Definition scandir_iter (path : string) (names : list string) (w : world)
  : step DirEntry * scan_state * world :=
  match names with
  | [] => (StopIteration, ScanDone, w)
  | name :: rest => (Yielded (DirEntry_init path name), ScanIter path rest, w)
  end.

Definition scandir_next (g : scan_state) (w : world)
  : step DirEntry * scan_state * world :=
  match g with
  | ScanStart path =>
      match os_listdir path w with
      | (inl e, w1) => (Raised (OSError e), ScanDone, w1)
      | (inr names, w1) => scandir_iter path names w1
      end
  | ScanIter path names => scandir_iter path names w
  | ScanDone => (StopIteration, ScanDone, w)
  end.

End Fallback.

(** ** The tree walker, shared by the three branches *)

(** What [walk] needs from the branch that was selected at import time. *)
Class Platform := {
  p_world : Type;
  p_entry : Type;                         (* [DirEntry] *)
  p_scan : Type;                          (* a [scandir] generator *)
  p_scandir : string -> p_scan;           (* [scandir(path)] *)
  p_next : p_scan -> p_world -> step p_entry * p_scan * p_world;
  p_name : p_entry -> string;             (* [entry.name] *)
  p_isdir : p_entry -> p_world -> bool * p_entry * p_world;
  p_islink : p_entry -> p_world -> bool * p_entry * p_world;
  p_join : string -> string -> string }.  (* [os.path.join] *)

#[export] Instance posix_platform : Platform := {|
  p_world := Posix.world;
  p_entry := Posix.DirEntry;
  p_scan := Posix.scan_state;
  p_scandir := Posix.scandir;
  p_next := Posix.scandir_next;
  p_name := Posix.name;
  p_isdir := Posix.isdir;
  p_islink := Posix.islink;
  p_join := Posix.join |}.

#[export] Instance win32_platform : Platform := {|
  p_world := Win32.world;
  p_entry := Win32.DirEntry;
  p_scan := Win32.scan_state;
  p_scandir := fun path => Win32.scandir path "*.*";
  p_next := Win32.scandir_next;
  p_name := Win32.name;
  p_isdir := fun e w => (Win32.isdir e, e, w);
  p_islink := fun e w => (Win32.islink e, e, w);
  p_join := Win32.join |}.

#[export] Instance fallback_platform : Platform := {|
  p_world := Fallback.world;
  p_entry := Fallback.DirEntry;
  p_scan := Fallback.scan_state;
  p_scandir := Fallback.scandir;
  p_next := Fallback.scandir_next;
  p_name := Fallback.name;
  p_isdir := Fallback.isdir;
  p_islink := Fallback.islink;
  p_join := Posix.join |}.

(** A yielded [(top, dir_names, file_names)]. *)
Definition triple : Type := string * list string * list string.

(** What a consumer of [walk] observes, in order: the triples yielded and
    the calls [onerror(error)]. *)
Inductive event :=
| Triple (t : triple)
| Called (error : exn).

(** How a run ends: the generator is exhausted, an exception leaves it, or
    the model's fuel ran out. *)
Inductive ending :=
| Finished
| Failed (e : exn)
| OutOfFuel.

Section Loops.
Context {P : Platform} {S : Type}.

(** [for entry in g: body], the loop state [s] standing for the local
    variables the body updates.  The loop ends when the generator stops
    or an exception leaves it; [fuel] bounds the number of iterations. *)
Fixpoint for_each (body : p_entry -> S -> p_world -> S * p_world)
         (fuel : nat) (g : p_scan) (s : S) (w : p_world)
  : option (exn + S) * p_world :=
  match fuel with
  | O => (None, w)
  | Datatypes.S fuel =>
      match p_next g w with
      | (StopIteration, _, w1) => (Some (inr s), w1)
      | (Raised e, _, w1) => (Some (inl e), w1)
      | (Yielded entry, g1, w1) =>
          let '(s1, w2) := body entry s w1 in
          for_each body fuel g1 s1 w2
      end
  end.
End Loops.

Section Walk.
Context {P : Platform}.

(** The consumer: for each triple it is handed in top-down mode, the
    contents of [dir_names] when it asks for the next item (the list is
    shared with the generator; [fun t => t.1.2] edits nothing). *)
Variable edit : triple -> list string.
Variable topdown : bool.
(** [onerror]: [None], or a handler, which is called with the error and
    returns ([None]) or raises; the call is recorded as [Called]. *)
Variable onerror : option (oserror -> option exn).
Variable followlinks : bool.

(** The body of [for entry in scandir(top)]: the entry goes to [dirs] or
    to [nondirs]. *)
Definition sort_entry (entry : p_entry)
           (acc : list p_entry * list p_entry) (w : p_world)
  : (list p_entry * list p_entry) * p_world :=
  let '(dirs, nondirs) := acc in
  match p_isdir entry w with
  | (true, entry1, w1) => ((dirs ++ [entry1])%list, nondirs, w1)
  | (false, entry1, w1) => (dirs, (nondirs ++ [entry1])%list, w1)
  end.

(** [for entry in scandir(top)], inside the [try]. *)
Definition scan_entries (fuel : nat) (top : string) (w : p_world)
  : option (exn + list p_entry * list p_entry) * p_world :=
  for_each sort_entry fuel (p_scandir top) ([], []) w.

(** The mapping of entries keyed by name. *)
Definition entries_by_name (dirs : list p_entry) : gmap string p_entry :=
  foldl (fun m entry => <[p_name entry := entry]> m) ∅ dirs.

(** [for dir_name in dir_names]: back from names to entries.  A name the
    mapping lacks reaches the call of [TODO_DirEntry], a name that is
    bound nowhere. *)
Fixpoint resolve (by_name : gmap string p_entry) (dir_names : list string)
  : exn + list p_entry :=
  match dir_names with
  | [] => inr []
  | dir_name :: rest =>
      match by_name !! dir_name with
      | None => inl (NameError "TODO_DirEntry")
      | Some entry =>
          match resolve by_name rest with
          | inl e => inl e
          | inr dirs => inr (entry :: dirs)
          end
      end
  end.

(** [for entry in dirs]: the recursion into sub-directories, over
    [walk_rec], the walk of one sub-directory. *)
Fixpoint walk_dirs (walk_rec : string -> p_world -> list event * ending * p_world)
         (top : string) (dirs : list p_entry) (w : p_world)
  : list event * ending * p_world :=
  match dirs with
  | [] => ([], Finished, w)
  | entry :: rest =>
      let '(descend, w1) :=
        if followlinks then (true, w)
        else let '(b, _, w1) := p_islink entry w in (negb b, w1) in
      if descend then
        let new_path := p_join top (p_name entry) in
        match walk_rec new_path w1 with
        | (evs, Finished, w2) =>
            let '(evs', e, w3) := walk_dirs walk_rec top rest w2 in
            ((evs ++ evs')%list, e, w3)
        | (evs, e, w2) => (evs, e, w2)
        end
      else walk_dirs walk_rec top rest w1
  end.

(** [walk(top, topdown, onerror, followlinks)], run to the end by a
    consumer that edits each [dir_names] as [edit] says.  [fuel] bounds
    the depth of the recursion and the length of each scan. *)
Fixpoint walk (fuel : nat) (top : string) (w : p_world)
  : list event * ending * p_world :=
  match fuel with
  | O => ([], OutOfFuel, w)
  | S fuel =>
      match scan_entries fuel top w with
      | (None, w1) => ([], OutOfFuel, w1)
      | (Some (inl (OSError error)), w1) =>
          match onerror with
          | None => ([], Finished, w1)
          | Some handler =>
              ([Called (OSError error)],
               match handler error with
               | None => Finished
               | Some e => Failed e
               end, w1)
          end
      | (Some (inl e), w1) => ([], Failed e, w1)
      | (Some (inr (dirs, nondirs)), w1) =>
          if topdown then
            let dir_names := map p_name dirs in
            let t := (top, dir_names, map p_name nondirs) in
            match resolve (entries_by_name dirs) (edit t) with
            | inl e => ([Triple t], Failed e, w1)
            | inr dirs =>
                let '(evs, e, w2) := walk_dirs (walk fuel) top dirs w1 in
                (Triple t :: evs, e, w2)
            end
          else
            match walk_dirs (walk fuel) top dirs w1 with
            | (evs, Finished, w2) =>
                ((evs ++ [Triple (top, map p_name dirs, map p_name nondirs)])%list,
                 Finished, w2)
            | (evs, e, w2) => (evs, e, w2)
            end
      end
  end.

End Walk.

(** The consumer that leaves every [dir_names] as it was yielded. *)
Definition no_edit (t : triple) : list string := t.1.2.

(** ** Consumers and observations used in the statements *)

Section Consumers.
Context {P : Platform}.

(** [list(scandir(path))]. *)
Definition drain (fuel : nat) (path : string) (w : p_world)
  : option (exn + list p_entry) * p_world :=
  for_each (fun entry acc w => ((acc ++ [entry])%list, w))
           fuel (p_scandir path) [] w.

(** [n] calls of [__next__], whatever they return. *)
Fixpoint advance (n : nat) (g : p_scan) (w : p_world) : p_scan * p_world :=
  match n with
  | O => (g, w)
  | S n => let '(_, g1, w1) := p_next g w in advance n g1 w1
  end.
End Consumers.

Module PosixObs.
Import Posix.

(** Number of [closedir(dir_p)] calls in a trace. *)
Fixpoint closedir_count (dir_p : DIR_p) (tr : list syscall) : nat :=
  match tr with
  | [] => O
  | Closedir h :: tr =>
      if Pos.eqb h dir_p then S (closedir_count dir_p tr)
      else closedir_count dir_p tr
  | _ :: tr => closedir_count dir_p tr
  end.

(** Number of [os.lstat] calls in a trace. *)
Fixpoint lstat_count (tr : list syscall) : nat :=
  match tr with
  | [] => O
  | Lstat _ :: tr => S (lstat_count tr)
  | _ :: tr => lstat_count tr
  end.

(** A consumer that asks for [n] items and then drops the generator. *)
Definition take_then_drop (n : nat) (path : string) (w : world)
  : scan_state * world :=
  let '(g, w1) := advance (P := posix_platform) n (scandir path) w in
  let '(_, g2, w2) := scandir_close g w1 in
  (g2, w2).

(** The names [readdir_r] reports over a whole stream, [.] and [..]
    included, as the byte strings they are: the full listing of the
    directory. *)
Fixpoint raw_names (reads : list read_step) : list bytes :=
  match reads with
  | [] => []
  | RdEntry e :: reads => d_name e :: raw_names reads
  | RdFail _ :: reads => raw_names reads
  end.

Definition no_read_failure (reads : list read_step) : Prop :=
  Forall (fun r => match r with RdEntry _ => True | RdFail _ => False end)
         reads.

(** The glibc macro [DTTOIF]: the file-type bits of a mode that a
    [d_type] stands for. *)
Definition DTTOIF (d_type : Z) : Z := Z.shiftl d_type 12.

(** [self.lstat()] called [n] times in a row on a fixed world: the
    results, the entry and the world at the end. *)
Fixpoint lstat_times (n : nat) (self : DirEntry) (w : world)
  : list (oserror + stat_result) * DirEntry * world :=
  match n with
  | O => ([], self, w)
  | S n =>
      let '(r, self1, w1) := lstat self w in
      let '(rs, self2, w2) := lstat_times n self1 w1 in
      (r :: rs, self2, w2)
  end.

Definition path_of (self : DirEntry) : string :=
  join (_path self) (name self).

(** The classification query that asks for the file type [q]. *)
Definition query (q : Spec.file_type)
  : DirEntry -> world -> bool * DirEntry * world :=
  match q with
  | Spec.Directory => isdir
  | Spec.Regular => isfile
  | Spec.SymLink => islink
  end.

(** Number of native status queries that [n] calls of [self.lstat()]
    make. *)
Definition status_queries (n : nat) (self : DirEntry) (w : world) : nat :=
  (lstat_count (w_trace (lstat_times n self w).2)
   - lstat_count (w_trace w))%nat.

Definition closes (dir_p : DIR_p) (w : world) : nat :=
  closedir_count dir_p (w_trace w).

(** The entries a complete scan of a stream yields under the codec
    [enc]: one for each entry read before the first read that fails or
    name that does not decode, the pseudo-entries left out; each holds the
    scanned path, the decoded name and the [dirent] read. *)
Fixpoint yields (enc : codec) (path : string) (reads : list read_step)
  : list DirEntry :=
  match reads with
  | [] => []
  | RdEntry e :: reads =>
      match cd_decode enc (d_name e) with
      | None => []
      | Some name =>
          if decide (Spec.pseudo_entry name) then yields enc path reads
          else mkDirEntry path name e None :: yields enc path reads
      end
  | RdFail _ :: _ => []
  end.

(** What stops the reading of a stream before its end, if anything does:
    the first read that fails (an [OSError] for the path, with the errno
    the read left) or the first name that does not decode. *)
Fixpoint first_failure (enc : codec) (path : string)
         (reads : list read_step) : option exn :=
  match reads with
  | [] => None
  | RdEntry e :: reads =>
      match cd_decode enc (d_name e) with
      | None => Some (UnicodeDecodeError (d_name e))
      | Some _ => first_failure enc path reads
      end
  | RdFail errno :: _ => Some (OSError (OsErr errno path))
  end.

(** The exception that ends a complete scan of a stream, if one does:
    [closedir] is always called and its failure wins. *)
Definition scan_raises (enc : codec) (path : string) (s : dirstream)
  : option exn :=
  match ds_close s with
  | Some errno => Some (OSError (OsErr errno path))
  | None => first_failure enc path (ds_reads s)
  end.




(** An entry that [isdir()] has put among the directories: its hint says
    directory, or it has no hint and its cached status is a directory's. *)
Definition dir_like (e : DirEntry) : Prop :=
  d_type (dirent_of e) = DT_DIR
  \/ (d_type (dirent_of e) = DT_UNKNOWN
      /\ exists st, _lstat e = Some st /\ mode_isdir st = true).

(** What the directory tree looks like is the same in both worlds, and so
    is the codec. *)
Definition same_os (w w' : world) : Prop :=
  w_opendir w' = w_opendir w /\ w_lstat w' = w_lstat w
  /\ file_system_encoding w' = file_system_encoding w.

(** The bookkeeping of one scan whose handle is [dir_p], [base] being
    the number of [closedir(dir_p)] calls made before it started: while
    the generator is suspended the handle is open and has not been
    closed; once the generator is done the handle is gone from the table
    and has been closed once. *)
Inductive held (base : nat) (dir_p : DIR_p) : scan_state -> world -> Prop :=
| held_open path w :
    is_Some (w_open w !! dir_p) -> closes dir_p w = base ->
    held base dir_p (ScanLoop path dir_p) w
| held_released w :
    w_open w !! dir_p = None -> closes dir_p w = S base ->
    held base dir_p ScanDone w.
End PosixObs.

Module Win32Obs.
Import Win32.

(** Number of [FindClose(h)] calls in a trace. *)
Fixpoint findclose_count (h : HANDLE) (tr : list syscall) : nat :=
  match tr with
  | [] => O
  | FindClosed h' :: tr =>
      if Pos.eqb h' h then S (findclose_count h tr)
      else findclose_count h tr
  | _ :: tr => findclose_count h tr
  end.

Definition closes (h : HANDLE) (w : world) : nat :=
  findclose_count h (w_trace w).

Definition take_then_drop (n : nat) (path wildcard : string) (w : world)
  : scan_state * world :=
  let '(g, w1) :=
    advance (P := win32_platform) n (scandir path wildcard) w in
  let '(_, g2, w2) := scandir_close g w1 in
  (g2, w2).

Inductive held (base : nat) (h : HANDLE) : scan_state -> world -> Prop :=
| held_open path w :
    is_Some (w_open w !! h) -> closes h w = base ->
    held base h (ScanLoop path h) w
| held_released w :
    w_open w !! h = None -> closes h w = S base ->
    held base h ScanDone w.

(** The names the find calls report over a whole handle, first record
    included. *)
Definition raw_names (first : WIN32_FIND_DATAW) (s : find_stream)
  : list string := cFileName first :: map cFileName (fs_rest s).
End Win32Obs.

Module FallbackObs.
Import Fallback.

Fixpoint lstat_count (tr : list syscall) : nat :=
  match tr with
  | [] => O
  | Lstat _ :: tr => S (lstat_count tr)
  | _ :: tr => lstat_count tr
  end.

Definition path_of (self : DirEntry) : string :=
  Posix.join (_path self) (name self).

Definition set_lstat (self : DirEntry) (st : stat_result) : DirEntry :=
  mkDirEntry (_path self) (name self) (Some st).

(** The classification query that asks for the file type [q]. *)
Definition query (q : Spec.file_type)
  : DirEntry -> world -> bool * DirEntry * world :=
  match q with
  | Spec.Directory => isdir
  | Spec.Regular => isfile
  | Spec.SymLink => islink
  end.
End FallbackObs.

(** ** Concrete directories used to exercise the statements *)
Module Examples.

Definition mode_dir : Z := Z.lor S_IFDIR 0x1ED.   (* 0o755 *)
Definition mode_reg : Z := Z.lor S_IFREG 0x1A4.   (* 0o644 *)
Definition mode_lnk : Z := Z.lor S_IFLNK 0x1FF.   (* 0o777 *)
Definition stat_of (mode : Z) : stat_result := Stat mode 7 1 1 1000 1000 0.

Definition ENOENT : Z := 2.
Definition EACCES : Z := 13.
Definition EIO : Z := 5.

(** The ASCII codec: text and bytes agree on the 7-bit characters, and
    nothing else converts. *)
Definition seven_bit (c : Ascii.ascii) : bool :=
  let 'Ascii.Ascii _ _ _ _ _ _ _ b7 := c in negb b7.
Fixpoint is_ascii (s : string) : bool :=
  match s with
  | EmptyString => true
  | String c s => seven_bit c && is_ascii s
  end.
Definition ascii_codec : codec :=
  Codec (fun text => if is_ascii text then Some text else None)
        (fun data => if is_ascii data then Some data else None).

(** A name with a byte that is not ASCII (and is not valid UTF-8 either):
    [caf\xe9]. *)
Definition latin1_name : bytes :=
  "caf" +:+ String (Ascii.ascii_of_nat 233) EmptyString.

(** [root/{a/, b/, f.txt, link -> a}], [a/] holding [x.txt] and [b/]
    holding [y.txt]; [top/locked] cannot be opened; a read fails in
    [flaky]; [odd] holds a name that does not decode. *)
Definition dot : Posix.read_step := Posix.RdEntry (Posix.Dirent 4 ".").
Definition dotdot : Posix.read_step := Posix.RdEntry (Posix.Dirent 4 "..").
Definition ent (d_type : Z) (name : string) : Posix.read_step :=
  Posix.RdEntry (Posix.Dirent d_type name).

Definition px_opendir (p : string) : Z + Posix.dirstream :=
  if String.eqb p "root" then
    inr (Posix.DirStream
           [dot; dotdot; ent 4 "a"; ent 10 "link"; ent 8 "f.txt"; ent 4 "b"]
           None)
  else if String.eqb p "root/a" then
    inr (Posix.DirStream [dot; dotdot; ent 8 "x.txt"] None)
  else if String.eqb p "root/link" then
    inr (Posix.DirStream [dot; dotdot; ent 8 "x.txt"] None)
  else if String.eqb p "root/b" then
    inr (Posix.DirStream [dot; dotdot; ent 8 "y.txt"] None)
  else if String.eqb p "top" then
    inr (Posix.DirStream [dot; dotdot; ent 4 "locked"; ent 4 "open"] None)
  else if String.eqb p "top/open" then
    inr (Posix.DirStream [dot; dotdot; ent 8 "z.txt"] None)
  else if String.eqb p "top/locked" then inl EACCES
  else if String.eqb p "flaky" then
    inr (Posix.DirStream [dot; ent 8 "one"; Posix.RdFail EIO; ent 8 "two"]
                         None)
  else if String.eqb p "odd" then
    inr (Posix.DirStream
           [dot; dotdot; ent 8 "ok"; ent 8 latin1_name; ent 8 "z"] None)
  else inl ENOENT.

Definition px_lstat (p : string) : Z + stat_result :=
  if String.eqb p "root/a" then inr (stat_of mode_dir)
  else if String.eqb p "root/b" then inr (stat_of mode_dir)
  else if String.eqb p "root/f.txt" then inr (stat_of mode_reg)
  else if String.eqb p "root/link" then inr (stat_of mode_lnk)
  else inl ENOENT.

Definition px_world : Posix.world :=
  Posix.World ascii_codec px_opendir px_lstat ∅ 1%positive 0 [].

(** The same world after [root/gone] has come into being. *)
Definition px_world_later : Posix.world :=
  Posix.World ascii_codec px_opendir
    (fun p => if String.eqb p "root/gone" then inr (stat_of mode_reg)
              else px_lstat p)
    ∅ 1%positive 0 [].

(** An entry for [root/a] with a definite hint, one without, and one for
    a file that has vanished since the scan. *)
Definition px_a : Posix.DirEntry :=
  Posix.DirEntry_init "root" "a" (Posix.Dirent Posix.DT_DIR "a").
Definition px_a_unknown : Posix.DirEntry :=
  Posix.DirEntry_init "root" "a" (Posix.Dirent Posix.DT_UNKNOWN "a").
Definition px_gone : Posix.DirEntry :=
  Posix.DirEntry_init "root" "gone" (Posix.Dirent Posix.DT_UNKNOWN "gone").

(** Windows: a plain directory, and a directory symbolic link (directory
    and reparse-point attributes both set). *)
Definition win_dir : Win32.DirEntry :=
  Win32.DirEntry_init "a" (Win32.FindData 16 0 0 "a").
Definition win_dirlink : Win32.DirEntry :=
  Win32.DirEntry_init "link" (Win32.FindData 1040 0 0 "link").
Definition win_filelink : Win32.DirEntry :=
  Win32.DirEntry_init "flink" (Win32.FindData 1024 0 0 "flink").

(** A drive whose root directory holds nothing at all: [FindFirstFile]
    fails with [ERROR_FILE_NOT_FOUND]. *)
Definition win_empty_world : Win32.world :=
  Win32.World (fun _ => inl Win32.ERROR_FILE_NOT_FOUND) ∅ 1%positive 0 [].

(** [C:\dir] holding [a] and [f.txt]; any other path does not exist
    ([ERROR_PATH_NOT_FOUND], 3). *)
Definition win_find (filename : string) : Z + (Win32.WIN32_FIND_DATAW * Win32.find_stream) :=
  if String.eqb filename (Win32.join "C:dir" "*.*") then
    inr (Win32.FindData 16 0 0 ".",
         Win32.FindStream
           [Win32.FindData 16 0 0 ".."; Win32.FindData 16 0 0 "a";
            Win32.FindData 32 0 120 "f.txt"]
           Win32.ERROR_NO_MORE_FILES None)
  else inl 3.
Definition win_world : Win32.world :=
  Win32.World win_find ∅ 1%positive 0 [].

(** [root] on Windows: the directory [a] holding [x.txt], and the
    directory symbolic link [link] to it. *)
Definition win_tree (filename : string)
  : Z + (Win32.WIN32_FIND_DATAW * Win32.find_stream) :=
  let listing rest :=
    inr (Win32.FindData 16 0 0 ".",
         Win32.FindStream (Win32.FindData 16 0 0 ".." :: rest)
                          Win32.ERROR_NO_MORE_FILES None) in
  if String.eqb filename (Win32.join "root" "*.*") then
    listing [Win32.FindData 16 0 0 "a"; Win32.FindData 1040 0 0 "link"]
  else if String.eqb filename (Win32.join (Win32.join "root" "a") "*.*")
  then listing [Win32.FindData 32 0 5 "x.txt"]
  else if String.eqb filename (Win32.join (Win32.join "root" "link") "*.*")
  then listing [Win32.FindData 32 0 5 "x.txt"]
  else inl 3.
Definition win_tree_world : Win32.world :=
  Win32.World win_tree ∅ 1%positive 0 [].

(** Error handlers for [walk]: one that takes note of the error and
    returns, one that raises the error it is handed. *)
Definition note (error : oserror) : option exn := None.

(** Consumers of [walk]: one appends a name to every [dir_names], one
    removes [b] from it. *)
Definition add_zzz (t : triple) : list string := (t.1.2 ++ ["zzz"])%list.
Definition prune_b (t : triple) : list string :=
  List.filter (fun n => negb (String.eqb n "b")) t.1.2.

Definition fb_world : Fallback.world :=
  Fallback.World
    (fun p => if String.eqb p "root" then inr ["a"; "f.txt"] else inl ENOENT)
    px_lstat [].
Definition fb_a : Fallback.DirEntry := Fallback.DirEntry_init "root" "a".
Definition fb_gone : Fallback.DirEntry :=
  Fallback.DirEntry_init "root" "gone".

End Examples.

(** ** Further consumers and observations *)

Section Collect.
Context {P : Platform}.

(** A consumer that keeps what it is handed: the entries yielded until the
    generator stops, and the exception that ended it, if one did. *)
Fixpoint collect (fuel : nat) (g : p_scan) (acc : list p_entry) (w : p_world)
  : option (list p_entry * option exn) * p_world :=
  match fuel with
  | O => (None, w)
  | S fuel =>
      match p_next g w with
      | (StopIteration, _, w1) => (Some (acc, None), w1)
      | (Raised e, _, w1) => (Some (acc, Some e), w1)
      | (Yielded entry, g1, w1) => collect fuel g1 (acc ++ [entry])%list w1
      end
  end.
End Collect.

Module Win32Scans.
Import Win32.

(** The entries a complete scan yields for the records the find calls
    report, [.] and [..] left out. *)
Definition entries_of (datas : list WIN32_FIND_DATAW) : list DirEntry :=
  map (fun d => mkDirEntry (cFileName d) None d)
      (filter (fun d => ~ Spec.pseudo_entry (cFileName d)) datas).

(** The error code of the [WindowsError] that ends a complete scan, if one
    does: [FindClose] is always called and its failure wins; otherwise the
    code with which [FindNextFile] gave up, unless it is
    [ERROR_NO_MORE_FILES]. *)
Definition scan_error (s : find_stream) : option Z :=
  match fs_close s with
  | Some e => Some e
  | None => if fs_end s =? ERROR_NO_MORE_FILES then None else Some (fs_end s)
  end.
End Win32Scans.

Module WalkObs.
Definition is_oserror (x : exn) : Prop :=
  match x with OSError _ => True | _ => False end.
Definition is_name_error (x : exn) : Prop :=
  match x with NameError _ => True | _ => False end.

(** No exception of the class [C] leaves the run. *)
Definition never (C : exn -> Prop) (e : ending) : Prop :=
  match e with
  | Failed x => ~ C x
  | _ => True
  end.

(** The handler, if there is one, raises no exception of the class [C]. *)
Definition handler_never (C : exn -> Prop)
           (onerror : option (oserror -> option exn)) : Prop :=
  match onerror with
  | None => True
  | Some handler =>
      forall error, match handler error with
                    | Some x => ~ C x
                    | None => True
                    end
  end.


End WalkObs.

Module PosixClassify.
Import Posix PosixObs.

(** Whether [isdir()] puts a freshly scanned entry among the directories,
    read off the type hint and, without one, off the status the operating
    system has for the entry's path. *)
Definition is_dir_in (w : world) (e : DirEntry) : bool :=
  let t := d_type (dirent_of e) in
  if negb (t =? DT_UNKNOWN) then t =? DT_DIR
  else match w_lstat w (path_of e) with
       | inr st => mode_isdir st
       | inl _ => false
       end.

Definition fresh (path name : string) (d : dirent) : DirEntry :=
  DirEntry_init path name d.

(** Every entry the streams of a world hold has a definite type hint. *)
Definition definite (r : read_step) : Prop :=
  match r with
  | RdEntry d => d_type d <> DT_UNKNOWN
  | RdFail _ => True
  end.

Definition definite_world (w : world) : Prop :=
  (forall p st, w_opendir w p = inr st -> Forall definite (ds_reads st))
  /\ (forall h st, w_open w !! h = Some st -> Forall definite (ds_reads st)).

Definition lstats (w : world) : nat := lstat_count (w_trace w).
End PosixClassify.

Module PosixSorted.
Import Posix PosixObs PosixClassify.

(** The two lists of the walker hold, in scan order, the names of the
    entries [ys] that are directories and of those that are not. *)
Definition sorted_as (w : world) (ys : list DirEntry)
           (acc : list DirEntry * list DirEntry) : Prop :=
  map name acc.1 = map name (List.filter (is_dir_in w) ys)
  /\ map name acc.2
     = map name (List.filter (fun e => negb (is_dir_in w e)) ys).
End PosixSorted.

Module PosixHandles.
Import Posix.

(** Handles are handed out in increasing order: none at or above
    [w_fresh] is open. *)
Definition handles_wf (w : world) : Prop :=
  forall h, (w_fresh w <= h)%positive -> w_open w !! h = None.

(** After the run from [w] to [w'] the table of open handles is what it
    was, and handles are still handed out in order. *)
Definition settled (w w' : world) : Prop :=
  w_open w' = w_open w /\ handles_wf w'.
End PosixHandles.

Module WalkOrders.
(** Two runs that made the same native calls, ended the same way and, when
    they ended by exhausting the tree, observed the same triples and handler
    calls up to their order. *)
Definition same_visit {W : Type} (r1 r2 : list event * ending * W) : Prop :=
  r1.2 = r2.2 /\ r1.1.2 = r2.1.2
  /\ (r1.1.2 = Finished -> r1.1.1 ≡ₚ r2.1.1).
End WalkOrders.

Module FallbackSorting.
Import Fallback.

(** Whether [lstat] of [path/n] reports a directory. *)
Definition is_dir_in (w : world) (path n : string) : bool :=
  match w_lstat w (Posix.join path n) with
  | inr st => mode_isdir st
  | inl _ => false
  end.

Definition lstats (w : world) : nat := FallbackObs.lstat_count (w_trace w).
End FallbackSorting.

(** * Properties *)

(** ** The tests of the code and the words of the specification *)
Module SpecWords.

(** The name test of the scans leaves out exactly the two pseudo-entries. *)
Lemma not_dot_spec name :
  not_dot name = if decide (Spec.pseudo_entry name) then false else true.
Proof.
  unfold not_dot.
  destruct (decide (Spec.pseudo_entry name)) as [[->| ->]|Hn]; [done|done|].
  destruct (String.eqb_spec name "."); [destruct Hn; by left|].
  destruct (String.eqb_spec name ".."); [destruct Hn; by right|]. done.
Qed.

(** The mode tests of the [is*] methods are the POSIX file-type tests. *)
Lemma mode_isdir_spec st :
  mode_isdir st = bool_decide (Spec.has_type Spec.Directory st).
Proof.
  unfold mode_isdir, Spec.has_type. simpl.
  destruct (Z.eqb_spec (Z.land (st_mode st) S_IFMT_mask) S_IFDIR) as [H|H];
    symmetry; [by apply bool_decide_eq_true|by apply bool_decide_eq_false].
Qed.

Lemma mode_isfile_spec st :
  mode_isfile st = bool_decide (Spec.has_type Spec.Regular st).
Proof.
  unfold mode_isfile, Spec.has_type. simpl.
  destruct (Z.eqb_spec (Z.land (st_mode st) S_IFMT_mask) S_IFREG) as [H|H];
    symmetry; [by apply bool_decide_eq_true|by apply bool_decide_eq_false].
Qed.

Lemma mode_islink_spec st :
  mode_islink st = bool_decide (Spec.has_type Spec.SymLink st).
Proof.
  unfold mode_islink, Spec.has_type. simpl.
  destruct (Z.eqb_spec (Z.land (st_mode st) S_IFMT_mask) S_IFLNK) as [H|H];
    symmetry; [by apply bool_decide_eq_true|by apply bool_decide_eq_false].
Qed.

End SpecWords.

(** ** Directory entries on POSIX *)
Module PosixEntry.
Import Posix PosixObs.

Lemma lstat_cached self st w :
  _lstat self = Some st -> lstat self w = (inr st, self, w).
Proof. intros H. unfold lstat. now rewrite H. Qed.

Lemma lstat_fresh_ok self st w :
  _lstat self = None ->
  w_lstat w (path_of self) = inr st ->
  lstat self w = (inr st, set_lstat self st, log (Lstat (path_of self)) w).
Proof.
  intros Hc Hq. unfold lstat, os_lstat, path_of in *. rewrite Hc. simpl.
  now rewrite Hq.
Qed.

Lemma lstat_fresh_fail self e w :
  _lstat self = None ->
  w_lstat w (path_of self) = inl e ->
  lstat self w
  = (inl (OsErr e (path_of self)), self, log (Lstat (path_of self)) w).
Proof.
  intros Hc Hq. unfold lstat, os_lstat, path_of in *. rewrite Hc. simpl.
  now rewrite Hq.
Qed.

Lemma classify_hint dt by_mode self w :
  d_type (dirent_of self) <> DT_UNKNOWN ->
  classify dt by_mode self w = (d_type (dirent_of self) =? dt, self, w).
Proof.
  intros H. unfold classify.
  destruct (Z.eqb_spec (d_type (dirent_of self)) DT_UNKNOWN); [done|].
  reflexivity.
Qed.

Lemma classify_unknown dt by_mode self w :
  d_type (dirent_of self) = DT_UNKNOWN ->
  classify dt by_mode self w
  = match lstat self w with
    | (inl _, self1, w1) => (false, self1, w1)
    | (inr st, self1, w1) => (by_mode st, self1, w1)
    end.
Proof. intros H. unfold classify. now rewrite H. Qed.

Lemma land_type_bits m d k :
  Z.land m S_IFMT_mask = DTTOIF d ->
  (Z.land m S_IFMT_mask =? Z.shiftl k 12) = (d =? k).
Proof.
  intros ->. unfold DTTOIF. rewrite !Z.shiftl_mul_pow2 by lia.
  destruct (Z.eqb_spec d k); [subst; apply Z.eqb_refl|].
  apply Z.eqb_neq. lia.
Qed.

End PosixEntry.

(** ** The POSIX scan generator *)
Module PosixScan.
Import Posix PosixObs.

Lemma pending_lookup h w s :
  w_open w !! h = Some s -> pending h w = length (ds_reads s).
Proof. intros H. unfold pending. now rewrite H. Qed.

(** One turn of the loop, the name test read as the specification words
    it. *)
Lemma scandir_loop_S fuel path h w :
  scandir_loop (S fuel) path h w
  = match readdir_r h w with
    | (ReadError, w1) =>
        finally_close path h (Raised (posix_error path w1)) w1
    | (ReadEnd, w1) => finally_close path h StopIteration w1
    | (ReadEntry entry, w1) =>
        match cd_decode (file_system_encoding w1) (d_name entry) with
        | None =>
            finally_close path h (Raised (UnicodeDecodeError (d_name entry)))
                          w1
        | Some name =>
            if decide (Spec.pseudo_entry name)
            then scandir_loop fuel path h w1
            else (Yielded (DirEntry_init path name entry),
                  ScanLoop path h, w1)
        end
    end.
Proof.
  cbn [scandir_loop]. destruct (readdir_r h w) as [[| |entry] w1]; try done.
  destruct (cd_decode _ _) as [name|]; [|done].
  rewrite SpecWords.not_dot_spec. by destruct (decide _).
Qed.

#[local] Arguments scandir_loop : simpl never.

(** The first [__next__] of a scan whose path encodes. *)
Lemma scandir_start path encoded w :
  cd_encode (file_system_encoding w) path = Some encoded ->
  scandir_next (scandir path) w
  = match opendir encoded w with
    | (None, w1) => (Raised (posix_error path w1), ScanDone, w1)
    | (Some dir_p, w1) => scandir_loop (S (pending dir_p w1)) path dir_p w1
    end.
Proof. intros He. unfold scandir. cbn [scandir_next]. now rewrite He. Qed.








Lemma advance_done n w :
  advance (P := posix_platform) n ScanDone w = (ScanDone, w).
Proof. induction n as [|n IH]; [done|]. simpl. exact IH. Qed.

(** No handle is acquired when [opendir] fails, and none is released. *)
Lemma take_then_drop_open_failure path encoded e n h w :
  cd_encode (file_system_encoding w) path = Some encoded ->
  w_opendir w encoded = inl e ->
  closes h (take_then_drop n path w).2 = closes h w.
Proof.
  intros He Ho. unfold take_then_drop. destruct n as [|n]; [done|].
  change (advance (P := posix_platform) (S n) (scandir path) w)
    with (let '(_, g1, w1) := scandir_next (scandir path) w in
          advance (P := posix_platform) n g1 w1).
  rewrite (scandir_start _ _ _ He). unfold opendir. rewrite Ho.
  rewrite advance_done. done.
Qed.

(** A generator that was never advanced has made no native call. *)
Lemma take_then_drop_not_started path w :
  take_then_drop 0 path w = (ScanDone, w).
Proof. done. Qed.

(** *** Running a scan to its end *)

Lemma same_os_refl w : same_os w w.
Proof. by split. Qed.

Lemma same_os_trans w1 w2 w3 : same_os w1 w2 -> same_os w2 w3 -> same_os w1 w3.
Proof. intros (? & ? & ?) (? & ? & ?). repeat split; congruence. Qed.

Lemma same_os_encoding w w' :
  same_os w w' -> file_system_encoding w' = file_system_encoding w.
Proof. by intros (_ & _ & ?). Qed.

Section ForEach.
Context {S : Type}.
Variable body : DirEntry -> S -> world -> S * world.
(** What is known of the loop state after the entries [ys]. *)
Variable J : list DirEntry -> S -> Prop.
(** The world in which the loop was entered, and the path scanned. *)
Variable w0 : world.
Variable path : string.
Hypothesis body_open : forall e s w, w_open (body e s w).2 = w_open w.
Hypothesis body_os : forall e s w, same_os w (body e s w).2.
Hypothesis body_J :
  forall ys name d s w,
    same_os w0 w -> J ys s ->
    J (ys ++ [DirEntry_init path name d])
      (body (DirEntry_init path name d) s w).1.

Let enc := file_system_encoding w0.

Let outcome (st : dirstream) (s : S) : option (exn + S) :=
  Some match scan_raises enc path st with
       | Some x => inl x
       | None => inr s
       end.

Lemma for_each_from_loop h cl : forall reads w s ys fuel lf,
  same_os w0 w ->
  w_open w !! h = Some (DirStream reads cl) ->
  (length reads <= fuel)%nat -> (length reads < lf)%nat ->
  J ys s ->
  exists s' w',
    match scandir_loop lf path h w with
    | (StopIteration, _, w1) => (Some (inr s), w1)
    | (Raised e, _, w1) => (Some (inl e), w1)
    | (Yielded entry, g1, w1) =>
        let '(s1, w2) := body entry s w1 in
        for_each (P := posix_platform) body fuel g1 s1 w2
    end = (outcome (DirStream reads cl) s', w')
    /\ J (ys ++ yields enc path reads) s' /\ same_os w0 w'.
Proof.
  induction reads as [|[e|err] rest IH];
    intros w s ys fuel lf Hos0 Hopen Hfuel Hlf HJ;
    (destruct lf as [|lf]; [simpl in Hlf; lia|]);
    rewrite scandir_loop_S; unfold readdir_r; simpl; rewrite Hopen; simpl.
  - unfold finally_close, closedir. simpl. rewrite Hopen.
    unfold outcome, scan_raises. simpl.
    destruct cl as [e2|]; simpl; exists s; eexists;
      (split; [reflexivity|]); rewrite app_nil_r; split; try done;
      (eapply same_os_trans; [exact Hos0|by split]).
  - rewrite (same_os_encoding _ _ Hos0). fold enc.
    set (w1 := set_open _ _).
    assert (Hos1 : same_os w0 w1)
      by (eapply same_os_trans; [exact Hos0|by split]).
    destruct (cd_decode enc (d_name e)) as [name|] eqn:Hdec.
    + destruct (decide (Spec.pseudo_entry name)) as [Hdot|Hdot].
      * destruct (IH w1 s ys fuel lf) as (s' & w' & Heq & HJ' & Hos);
          [exact Hos1|subst w1; simpl; apply lookup_insert_eq
          |simpl in Hfuel; lia|simpl in Hlf; lia|done|].
        exists s', w'. split; [|split; [exact HJ'|exact Hos]].
        etrans; [exact Heq|]. unfold outcome, scan_raises. simpl.
        now rewrite Hdec.
      * pose proof (body_open (DirEntry_init path name e) s w1) as Hbo.
        pose proof (body_os (DirEntry_init path name e) s w1) as Hbs.
        pose proof (body_J ys name e s w1 Hos1 HJ) as HbJ.
        destruct (body (DirEntry_init path name e) s w1) as [s1 w2].
        simpl in Hbo, Hbs, HbJ.
        destruct fuel as [|fuel]; [simpl in Hfuel; lia|].
        assert (Hopen2 : w_open w2 !! h = Some (DirStream rest cl))
          by (rewrite Hbo; subst w1; apply lookup_insert_eq).
        destruct (IH w2 s1 (ys ++ [DirEntry_init path name e])%list fuel
                     (Datatypes.S (pending h w2)))
          as (s' & w' & Heq & HJ' & Hos);
          [eapply same_os_trans; eauto|exact Hopen2
          |simpl in Hfuel; lia| |done|].
        { rewrite (pending_lookup _ _ _ Hopen2). simpl. lia. }
        exists s', w'. split; [|split; [|exact Hos]].
        -- etrans; [exact Heq|]. unfold outcome, scan_raises. simpl.
           now rewrite Hdec.
        -- rewrite <- app_assoc in HJ'. exact HJ'.
    + unfold finally_close, closedir. simpl. subst w1. simpl.
      rewrite lookup_insert_eq. unfold outcome, scan_raises. simpl.
      rewrite Hdec.
      destruct cl as [e2|]; simpl; exists s; eexists;
        (split; [reflexivity|]); rewrite app_nil_r; split; try done;
        (eapply same_os_trans; [exact Hos0|by split]).
  - unfold finally_close, closedir. simpl. rewrite lookup_insert_eq.
    unfold outcome, scan_raises. simpl.
    destruct cl as [e2|]; simpl; exists s; eexists;
      (split; [reflexivity|]); rewrite app_nil_r; split; try done;
      (eapply same_os_trans; [exact Hos0|by split]).
Qed.

(** A whole [for entry in scandir(path)] loop, from a directory that
    opens. *)
Lemma for_each_scandir encoded st s fuel :
  cd_encode enc path = Some encoded ->
  w_opendir w0 encoded = inr st ->
  (length (ds_reads st) < fuel)%nat ->
  J [] s ->
  exists s' w',
    for_each (P := posix_platform) body fuel (scandir path) s w0
    = (outcome st s', w')
    /\ J (yields enc path (ds_reads st)) s' /\ same_os w0 w'.
Proof.
  intros He Ho Hfuel HJ. destruct fuel as [|fuel]; [lia|].
  destruct st as [reads cl]. simpl in Hfuel.
  cbn [for_each].
  change (@p_next posix_platform) with scandir_next.
  rewrite (scandir_start _ _ _ He). unfold opendir. rewrite Ho.
  set (w1 := log _ _).
  destruct (for_each_from_loop (w_fresh w0) cl reads w1 s [] fuel
              (Datatypes.S (pending (w_fresh w0) w1)))
    as (s' & w' & Heq & HJ' & Hos);
    [by split|subst w1; simpl; apply lookup_insert_eq|lia| |done|].
  { subst w1. unfold pending. simpl. rewrite lookup_insert_eq. simpl. lia. }
  exists s', w'. split; [exact Heq|]. split; [exact HJ'|exact Hos].
Qed.


(** ... and for a path that does not encode. *)
Lemma for_each_scandir_encode_failure s fuel :
  cd_encode enc path = None ->
  for_each (P := posix_platform) body (Datatypes.S fuel) (scandir path) s w0
  = (Some (inl (UnicodeEncodeError path)), w0).
Proof.
  intros He. cbn [for_each].
  change (@p_next posix_platform) with scandir_next.
  unfold scandir. cbn [scandir_next]. fold enc. now rewrite He.
Qed.
End ForEach.

End PosixScan.

(** ** The Windows scan generator *)
Module Win32Scan.
Import Win32 Win32Obs.

Lemma win_pending_lookup h w s :
  w_open w !! h = Some s -> pending h w = length (fs_rest s).
Proof. intros H. unfold pending. now rewrite H. Qed.



#[local] Arguments scandir_loop : simpl never.






Lemma win_advance_done n w :
  advance (P := win32_platform) n ScanDone w = (ScanDone, w).
Proof. induction n as [|n IH]; [done|]. simpl. exact IH. Qed.

Lemma win_take_then_drop_open_failure path wildcard e n h w :
  w_find w (join path wildcard) = inl e ->
  closes h (take_then_drop n path wildcard w).2 = closes h w.
Proof.
  intros Ho. unfold take_then_drop. destruct n as [|n]; [done|].
  simpl. unfold FindFirstFile. rewrite Ho. simpl.
  destruct (e =? ERROR_FILE_NOT_FOUND); rewrite win_advance_done; done.
Qed.

End Win32Scan.

(** ** Directory entries on the fallback branch *)
Module FallbackEntry.
Import Fallback FallbackObs.

Lemma fb_lstat_fresh_ok self st w :
  _lstat self = None ->
  w_lstat w (path_of self) = inr st ->
  lstat self w = (inr st, set_lstat self st, log (Lstat (path_of self)) w).
Proof.
  intros Hc Hq. unfold lstat, os_lstat, path_of in *. rewrite Hc. simpl.
  now rewrite Hq.
Qed.

Lemma fb_lstat_fresh_fail self e w :
  _lstat self = None ->
  w_lstat w (path_of self) = inl e ->
  lstat self w
  = (inl (OsErr e (path_of self)), self, log (Lstat (path_of self)) w).
Proof.
  intros Hc Hq. unfold lstat, os_lstat, path_of in *. rewrite Hc. simpl.
  now rewrite Hq.
Qed.
End FallbackEntry.

(** ** Classification and status of directory entries *)

(** C6. An entry whose type hint is unknown (POSIX) or absent (fallback)
    answers each classification query ([isdir], [isfile], [islink]) from
    the status.  When the status is not cached yet, the query makes exactly
    one [os.lstat] of the entry's path, stores the record in the entry (and
    changes nothing else in it), and answers with the file type that the
    mode bits of the record give: [mode & 0o170000] equal to [0o040000],
    [0o100000] or [0o120000]; every later query on the entry is answered
    from the stored record, in any world, without a native call.  When
    [os.lstat] fails, the query answers [False] and leaves the entry without
    a cached status, whereas [lstat()] on the same failure hands the
    [OSError] to the caller.  A cached status is classified without a new
    query. *)
Theorem unknown_hint_classifies_from_status :
  (forall (self : Posix.DirEntry) (w : Posix.world) (q : Spec.file_type),
      Posix.d_type (Posix.dirent_of self) = Posix.DT_UNKNOWN ->
      let p := PosixObs.path_of self in
      let w1 := Posix.log (Posix.Lstat p) w in
      (forall st, Posix._lstat self = None -> Posix.w_lstat w p = inr st ->
         let self1 := Posix.mkDirEntry (Posix._path self) (Posix.name self)
                                       (Posix.dirent_of self) (Some st) in
         PosixObs.query q self w
         = (bool_decide (Spec.has_type q st), self1, w1)
         /\ PosixObs.lstat_count (Posix.w_trace w1)
            = S (PosixObs.lstat_count (Posix.w_trace w))
         /\ (forall q' w2,
               PosixObs.query q' self1 w2
               = (bool_decide (Spec.has_type q' st), self1, w2)))
      /\ (forall e, Posix._lstat self = None -> Posix.w_lstat w p = inl e ->
            PosixObs.query q self w = (false, self, w1)
            /\ Posix.lstat self w = (inl (OsErr e p), self, w1))
      /\ (forall st, Posix._lstat self = Some st ->
            PosixObs.query q self w
            = (bool_decide (Spec.has_type q st), self, w)))
  /\
  (forall (self : Fallback.DirEntry) (w : Fallback.world)
          (q : Spec.file_type),
      let p := FallbackObs.path_of self in
      let w1 := Fallback.log (Fallback.Lstat p) w in
      (forall st, Fallback._lstat self = None -> Fallback.w_lstat w p = inr st ->
         let self1 := Fallback.mkDirEntry (Fallback._path self)
                                          (Fallback.name self) (Some st) in
         FallbackObs.query q self w
         = (bool_decide (Spec.has_type q st), self1, w1)
         /\ FallbackObs.lstat_count (Fallback.w_trace w1)
            = S (FallbackObs.lstat_count (Fallback.w_trace w))
         /\ (forall q' w2,
               FallbackObs.query q' self1 w2
               = (bool_decide (Spec.has_type q' st), self1, w2)))
      /\ (forall e, Fallback._lstat self = None -> Fallback.w_lstat w p = inl e ->
            FallbackObs.query q self w = (false, self, w1)
            /\ Fallback.lstat self w = (inl (OsErr e p), self, w1))
      /\ (forall st, Fallback._lstat self = Some st ->
            FallbackObs.query q self w
            = (bool_decide (Spec.has_type q st), self, w))).
Proof.
  assert (Hposix : forall (self : Posix.DirEntry) w q,
    Posix.d_type (Posix.dirent_of self) = Posix.DT_UNKNOWN ->
    PosixObs.query q self w
    = match Posix.lstat self w with
      | (inl _, self1, w1) => (false, self1, w1)
      | (inr st, self1, w1) => (bool_decide (Spec.has_type q st), self1, w1)
      end).
  { intros self w q Hu.
    destruct q; simpl;
      unfold Posix.isdir, Posix.isfile, Posix.islink;
      rewrite PosixEntry.classify_unknown by done;
      destruct (Posix.lstat self w) as [[[e|st] self1] w1]; try done;
      [rewrite SpecWords.mode_isdir_spec|rewrite SpecWords.mode_isfile_spec
      |rewrite SpecWords.mode_islink_spec]; done. }
  assert (Hfallback : forall (self : Fallback.DirEntry) w q,
    FallbackObs.query q self w
    = match Fallback.lstat self w with
      | (inl _, self1, w1) => (false, self1, w1)
      | (inr st, self1, w1) => (bool_decide (Spec.has_type q st), self1, w1)
      end).
  { intros self w q.
    destruct q; simpl;
      unfold Fallback.isdir, Fallback.isfile, Fallback.islink,
        Fallback.classify;
      destruct (Fallback.lstat self w) as [[[e|st] self1] w1]; try done;
      [rewrite SpecWords.mode_isdir_spec|rewrite SpecWords.mode_isfile_spec
      |rewrite SpecWords.mode_islink_spec]; done. }
  split.
  - intros self w q Hu p w1. split; [|split].
    + intros st Hc Hq self1. split; [|split].
      * rewrite Hposix by done.
        now rewrite (PosixEntry.lstat_fresh_ok _ _ _ Hc Hq).
      * done.
      * intros q' w2. rewrite Hposix by done.
        now rewrite (PosixEntry.lstat_cached self1 st w2 eq_refl).
    + intros e Hc Hq. rewrite Hposix by done.
      now rewrite (PosixEntry.lstat_fresh_fail _ _ _ Hc Hq).
    + intros st Hc. rewrite Hposix by done.
      now rewrite (PosixEntry.lstat_cached _ _ _ Hc).
  - intros self w q p w1. split; [|split].
    + intros st Hc Hq self1. split; [|split].
      * rewrite Hfallback.
        now rewrite (FallbackEntry.fb_lstat_fresh_ok _ _ _ Hc Hq).
      * done.
      * intros q' w2. rewrite Hfallback. unfold Fallback.lstat. done.
    + intros e Hc Hq. rewrite Hfallback.
      now rewrite (FallbackEntry.fb_lstat_fresh_fail _ _ _ Hc Hq).
    + intros st Hc. rewrite Hfallback. unfold Fallback.lstat.
      now rewrite Hc.
Qed.

(** C10. A failed status query is not memoized.  When [os.lstat] fails in
    [lstat()], the entry is left exactly as it was, its cached status unset;
    so a later [lstat()], in whatever state the file system then is, queries
    the operating system again: it returns and caches the status if the
    query now succeeds, and fails afresh if it does not.  The same holds for
    a later classification query on an entry without a type hint. *)
Theorem failed_status_not_memoized
        (self : Posix.DirEntry) (w : Posix.world) (e : Z) :
  Posix._lstat self = None ->
  Posix.w_lstat w (PosixObs.path_of self) = inl e ->
  let p := PosixObs.path_of self in
  let self1 := (Posix.lstat self w).1.2 in
  (Posix.lstat self w).1.1 = inl (OsErr e p)
  /\ self1 = self
  /\ Posix._lstat self1 = None
  /\ (forall w2 st, Posix.w_lstat w2 p = inr st ->
        Posix.lstat self1 w2
        = (inr st, Posix.set_lstat self st, Posix.log (Posix.Lstat p) w2))
  /\ (forall w2 e2, Posix.w_lstat w2 p = inl e2 ->
        Posix.lstat self1 w2
        = (inl (OsErr e2 p), self, Posix.log (Posix.Lstat p) w2))
  /\ (forall w2 st,
        Posix.d_type (Posix.dirent_of self) = Posix.DT_UNKNOWN ->
        Posix.w_lstat w2 p = inr st ->
        Posix.isdir self1 w2
        = (mode_isdir st, Posix.set_lstat self st,
           Posix.log (Posix.Lstat p) w2)).
Proof.
  intros Hc Hq p self1. subst self1.
  rewrite (PosixEntry.lstat_fresh_fail _ _ _ Hc Hq). simpl.
  split; [done|]. split; [done|]. split; [done|]. split; [|split].
  - intros w2 st Hq2. now apply PosixEntry.lstat_fresh_ok.
  - intros w2 e2 Hq2. now apply PosixEntry.lstat_fresh_fail.
  - intros w2 st Hu Hq2. unfold Posix.isdir.
    rewrite PosixEntry.classify_unknown by done.
    now rewrite (PosixEntry.lstat_fresh_ok _ _ _ Hc Hq2).
Qed.

Lemma failed_status_not_memoized_witness :
  Posix.lstat Examples.px_gone Examples.px_world
  = (inl (OsErr Examples.ENOENT "root/gone"), Examples.px_gone,
     Posix.log (Posix.Lstat "root/gone") Examples.px_world)
  /\ Posix.lstat (Posix.lstat Examples.px_gone Examples.px_world).1.2
                 Examples.px_world_later
     = (inr (Examples.stat_of Examples.mode_reg),
        Posix.set_lstat Examples.px_gone (Examples.stat_of Examples.mode_reg),
        Posix.log (Posix.Lstat "root/gone") Examples.px_world_later).
Proof.
  split; [reflexivity|].
  exact (proj1 (proj2 (proj2 (proj2
    (failed_status_not_memoized Examples.px_gone Examples.px_world
       Examples.ENOENT eq_refl eq_refl))))
    Examples.px_world_later (Examples.stat_of Examples.mode_reg) eq_refl).
Defined.

Module PosixStatus.
Import Posix PosixObs.

Lemma lstat_times_cached n : forall self st w,
  _lstat self = Some st ->
  lstat_times n self w = (repeat (inr st) n, self, w).
Proof.
  induction n as [|n IH]; intros self st w Hc; [done|].
  simpl. rewrite (PosixEntry.lstat_cached _ _ _ Hc).
  now rewrite (IH _ _ _ Hc).
Qed.

Lemma lstat_times_fresh_ok n self st w :
  _lstat self = None ->
  w_lstat w (path_of self) = inr st ->
  lstat_times (S n) self w
  = (repeat (inr st) (S n), set_lstat self st, log (Lstat (path_of self)) w).
Proof.
  intros Hc Hq. simpl. rewrite (PosixEntry.lstat_fresh_ok _ _ _ Hc Hq).
  now rewrite (lstat_times_cached n (set_lstat self st) st).
Qed.
End PosixStatus.

(** C7, as stated, fails: on an entry whose file has vanished, every
    [lstat()] call fails and nothing is memoized, so two calls make two
    native queries, not one. *)
Lemma status_twice_queries_twice :
  PosixObs.status_queries 2 Examples.px_gone Examples.px_world = 2%nat
  /\ ~ (forall self w, PosixObs.status_queries 2 self w = 1%nat).
Proof.
  split; [reflexivity|].
  intros H. specialize (H Examples.px_gone Examples.px_world).
  vm_compute in H. discriminate H.
Qed.

(** C7, amended.  [lstat()] is idempotent once it has succeeded: on an entry
    with no cached status whose first query succeeds, any number [n + 1] of
    calls makes exactly one native query and every call returns the same
    record, which is then cached in the entry; on an entry that already has a
    cached status no call queries at all.  On Windows [lstat()] makes no
    native call: the find data is converted once, and a second call returns
    the stored record without converting again. *)
Theorem status_memoized_after_success :
  (forall (self : Posix.DirEntry) (w : Posix.world) st n,
      Posix._lstat self = None ->
      Posix.w_lstat w (PosixObs.path_of self) = inr st ->
      PosixObs.lstat_times (S n) self w
      = (repeat (inr st) (S n), Posix.set_lstat self st,
         Posix.log (Posix.Lstat (PosixObs.path_of self)) w)
      /\ PosixObs.status_queries (S n) self w = 1%nat)
  /\ (forall (self : Posix.DirEntry) (w : Posix.world) st n,
        Posix._lstat self = Some st ->
        PosixObs.lstat_times n self w = (repeat (inr st) n, self, w))
  /\ (forall self : Win32.DirEntry,
        Win32.lstat (Win32.lstat self).2 = Win32.lstat self
        /\ Win32._lstat (Win32.lstat self).2 = Some (Win32.lstat self).1
        /\ (Win32._lstat self = None ->
            (Win32.lstat self).1
            = Win32.find_data_to_stat (Win32._find_data self))).
Proof.
  split; [|split].
  - intros self w st n Hc Hq.
    pose proof (PosixStatus.lstat_times_fresh_ok n _ _ _ Hc Hq) as H.
    split; [exact H|].
    unfold PosixObs.status_queries. rewrite H. simpl. lia.
  - intros self w st n Hc. now apply PosixStatus.lstat_times_cached.
  - intros self. unfold Win32.lstat.
    destruct (Win32._lstat self) as [st|] eqn:Hc; simpl.
    + rewrite Hc. done.
    + done.
Qed.

Lemma status_memoized_after_success_witness :
  PosixObs.lstat_times 3 Examples.px_a_unknown Examples.px_world
  = (repeat (inr (Examples.stat_of Examples.mode_dir)) 3,
     Posix.set_lstat Examples.px_a_unknown
                     (Examples.stat_of Examples.mode_dir),
     Posix.log (Posix.Lstat "root/a") Examples.px_world)
  /\ PosixObs.status_queries 3 Examples.px_a_unknown Examples.px_world
     = 1%nat.
Proof.
  exact (proj1 status_memoized_after_success Examples.px_a_unknown
           Examples.px_world (Examples.stat_of Examples.mode_dir) 2%nat
           eq_refl eq_refl).
Defined.

(** C3, as stated, fails on Windows for reparse points.  For a directory
    symbolic link [isdir()] and [islink()] both answer [True], while the
    mode that [lstat()] builds from the same find data, [S_IFDIR | S_IFLNK]
    with the permission bits, is neither a directory mode nor a link mode;
    for a symbolic link to a file [isfile()] answers [True] while the mode
    is that of a link. *)
Lemma reparse_point_hint_disagrees_with_status :
  (Win32.isdir Examples.win_dirlink = true
   /\ mode_isdir (Win32.lstat Examples.win_dirlink).1 = false)
  /\ (Win32.islink Examples.win_dirlink = true
      /\ mode_islink (Win32.lstat Examples.win_dirlink).1 = false)
  /\ (Win32.isfile Examples.win_filelink = true
      /\ mode_isfile (Win32.lstat Examples.win_filelink).1 = false).
Proof. repeat split; reflexivity. Qed.

(** C3, amended.  On POSIX, for an entry whose [d_type] is not
    [DT_UNKNOWN] and agrees with the file-type bits of the status [st] that
    [os.lstat] has for it, [isdir()], [isfile()] and [islink()] return what
    the mode bits of [st] give, and leave the entry and the world as they
    were: no status query is made.  On Windows, for an entry whose
    attributes do not have the reparse-point bit, the three queries (which
    take no world at all) return what the mode bits of the converted find
    data give. *)
Theorem definite_hint_agrees_with_status :
  (forall (self : Posix.DirEntry) (w : Posix.world) (st : stat_result),
      Posix.d_type (Posix.dirent_of self) <> Posix.DT_UNKNOWN ->
      Posix.w_lstat w (PosixObs.path_of self) = inr st ->
      Z.land (st_mode st) S_IFMT_mask
      = PosixObs.DTTOIF (Posix.d_type (Posix.dirent_of self)) ->
      Posix.isdir self w = (mode_isdir st, self, w)
      /\ Posix.isfile self w = (mode_isfile st, self, w)
      /\ Posix.islink self w = (mode_islink st, self, w))
  /\
  (forall self : Win32.DirEntry,
      Z.land (Win32.dwFileAttributes (Win32._find_data self))
             Win32.FILE_ATTRIBUTE_REPARSE_POINT = 0 ->
      let st := Win32.find_data_to_stat (Win32._find_data self) in
      Win32.isdir self = mode_isdir st
      /\ Win32.isfile self = mode_isfile st
      /\ Win32.islink self = mode_islink st).
Proof.
  split.
  - intros self w st Hd _ Hm.
    unfold Posix.isdir, Posix.isfile, Posix.islink.
    rewrite !PosixEntry.classify_hint by done.
    unfold mode_isdir, mode_isfile, mode_islink.
    change S_IFDIR with (Z.shiftl Posix.DT_DIR 12).
    change S_IFREG with (Z.shiftl Posix.DT_REG 12).
    change S_IFLNK with (Z.shiftl Posix.DT_LNK 12).
    rewrite !(PosixEntry.land_type_bits _ _ _ Hm). done.
  - intros self Hr st. subst st.
    unfold Win32.isdir, Win32.isfile, Win32.islink, Win32.find_data_to_stat,
      mode_isdir, mode_isfile, mode_islink.
    rewrite Hr. simpl negb. cbv iota.
    destruct (Z.land _ Win32.FILE_ATTRIBUTE_DIRECTORY =? 0);
      destruct (Z.land _ Win32.FILE_ATTRIBUTE_READONLY =? 0);
      repeat split; reflexivity.
Qed.

Lemma definite_hint_agrees_with_status_witness :
  (Posix.isdir Examples.px_a Examples.px_world
   = (true, Examples.px_a, Examples.px_world)
   /\ Posix.isfile Examples.px_a Examples.px_world
      = (false, Examples.px_a, Examples.px_world)
   /\ Posix.islink Examples.px_a Examples.px_world
      = (false, Examples.px_a, Examples.px_world))
  /\ (Win32.isdir Examples.win_dir = true
      /\ Win32.isfile Examples.win_dir = false
      /\ Win32.islink Examples.win_dir = false).
Proof.
  split.
  - refine (proj1 definite_hint_agrees_with_status Examples.px_a
              Examples.px_world (Examples.stat_of Examples.mode_dir)
              _ eq_refl eq_refl).
    vm_compute. discriminate.
  - exact (proj2 definite_hint_agrees_with_status Examples.win_dir eq_refl).
Defined.

(** ** The scan handle *)



(** ** Failure to open *)

(** C2, as stated, fails on Windows: when [FindFirstFile] fails with
    [ERROR_FILE_NOT_FOUND] the generator returns at once, so the consumer
    sees an empty sequence and no error. *)
Lemma open_failure_yields_empty_sequence :
  (Win32.FindFirstFile (Win32.join "D:" "*.*") Examples.win_empty_world).1
  = None
  /\ (Win32.scandir_next (Win32.scandir "D:" "*.*")
        Examples.win_empty_world).1
     = (StopIteration, Win32.ScanDone)
  /\ (drain (P := win32_platform) 1 "D:" Examples.win_empty_world).1
     = Some (inr []).
Proof. repeat split; reflexivity. Qed.

(** C2, amended.  When the directory cannot be opened, the first
    [__next__] of the scan raises an [OSError] that carries the native error
    code and the path, and the generator is finished: on POSIX for every
    errno of [opendir] (called with the encoded path; the error carries the
    path as it was given), on the fallback branch for every errno of
    [os.listdir], on Windows for every error code of [FindFirstFile] other
    than [ERROR_FILE_NOT_FOUND].  On Windows that one code ends the scan
    without an error and without an entry. *)
Theorem open_failure_raises :
  (forall (w : Posix.world) path encoded e,
      cd_encode (Posix.file_system_encoding w) path = Some encoded ->
      Posix.w_opendir w encoded = inl e ->
      Posix.scandir_next (Posix.scandir path) w
      = (Raised (OSError (OsErr e path)), Posix.ScanDone,
         Posix.log (Posix.Opendir encoded None) (Posix.set_errno e w)))
  /\ (forall (w : Fallback.world) path e,
        Fallback.w_listdir w path = inl e ->
        Fallback.scandir_next (Fallback.scandir path) w
        = (Raised (OSError (OsErr e path)), Fallback.ScanDone,
           Fallback.log (Fallback.Listdir path) w))
  /\ (forall (w : Win32.world) path wildcard e,
        Win32.w_find w (Win32.join path wildcard) = inl e ->
        let w1 := Win32.log (Win32.FindFirst (Win32.join path wildcard) None)
                            (Win32.set_last_error e w) in
        (e <> Win32.ERROR_FILE_NOT_FOUND ->
         Win32.scandir_next (Win32.scandir path wildcard) w
         = (Raised (OSError (OsErr e path)), Win32.ScanDone, w1))
        /\ (e = Win32.ERROR_FILE_NOT_FOUND ->
            Win32.scandir_next (Win32.scandir path wildcard) w
            = (StopIteration, Win32.ScanDone, w1))).
Proof.
  split; [|split].
  - intros w path encoded e He Ho. rewrite (PosixScan.scandir_start _ _ _ He).
    unfold Posix.opendir. now rewrite Ho.
  - intros w path e Ho. simpl. unfold Fallback.os_listdir. simpl.
    now rewrite Ho.
  - intros w path wildcard e Ho w1. subst w1. simpl.
    unfold Win32.FindFirstFile. rewrite Ho. simpl. split; intros He.
    + destruct (Z.eqb_spec e Win32.ERROR_FILE_NOT_FOUND); [done|done].
    + subst e. done.
Qed.

Lemma open_failure_raises_witness :
  (Posix.scandir_next (Posix.scandir "top/locked") Examples.px_world).1
  = (Raised (OSError (OsErr Examples.EACCES "top/locked")), Posix.ScanDone)
  /\ (Posix.scandir_next (Posix.scandir "nowhere") Examples.px_world).1
     = (Raised (OSError (OsErr Examples.ENOENT "nowhere")), Posix.ScanDone)
  /\ (Win32.scandir_next (Win32.scandir "C:nowhere" "*.*")
        Examples.win_world).1
     = (Raised (OSError (OsErr 3 "C:nowhere")), Win32.ScanDone).
Proof.
  split; [|split].
  - exact (f_equal fst (proj1 open_failure_raises Examples.px_world
             "top/locked" "top/locked" Examples.EACCES eq_refl eq_refl)).
  - exact (f_equal fst (proj1 open_failure_raises Examples.px_world
             "nowhere" "nowhere" Examples.ENOENT eq_refl eq_refl)).
  - refine (f_equal fst (proj1 (proj2 (proj2 open_failure_raises)
             Examples.win_world "C:nowhere" "*.*" 3 eq_refl) _)).
    vm_compute. discriminate.
Defined.

(** ** What a scan run to its end gives *)
Module ScanOutcome.

Lemma posix_collect_from_loop path h cl : forall reads w acc fuel lf,
  Posix.w_open w !! h = Some (Posix.DirStream reads cl) ->
  (length reads <= fuel)%nat -> (length reads < lf)%nat ->
  exists w',
    match Posix.scandir_loop lf path h w with
    | (StopIteration, _, w1) => (Some (acc, None), w1)
    | (Raised e, _, w1) => (Some (acc, Some e), w1)
    | (Yielded entry, g1, w1) =>
        collect (P := posix_platform) fuel g1 (acc ++ [entry])%list w1
    end
    = (Some ((acc ++ PosixObs.yields (Posix.file_system_encoding w) path
                                     reads)%list,
             PosixObs.scan_raises (Posix.file_system_encoding w) path
                                  (Posix.DirStream reads cl)),
       w')
    /\ PosixObs.same_os w w'
    /\ PosixObs.lstat_count (Posix.w_trace w')
       = PosixObs.lstat_count (Posix.w_trace w).
Proof.
  induction reads as [|[e|err] rest IH]; intros w acc fuel lf Hopen Hfuel Hlf;
    (destruct lf as [|lf]; [simpl in Hlf; lia|]);
    rewrite PosixScan.scandir_loop_S; unfold Posix.readdir_r; simpl;
    rewrite Hopen; simpl.
  - unfold Posix.finally_close, Posix.closedir. simpl. rewrite Hopen.
    unfold PosixObs.scan_raises. simpl.
    destruct cl as [e2|]; simpl; eexists;
      (split; [rewrite app_nil_r; reflexivity|]); by split.
  - set (w1 := Posix.set_open _ _).
    assert (Hopen1 : Posix.w_open w1 !! h = Some (Posix.DirStream rest cl))
      by (subst w1; simpl; apply lookup_insert_eq).
    unfold PosixObs.scan_raises. simpl.
    destruct (cd_decode (Posix.file_system_encoding w) (Posix.d_name e))
      as [name|] eqn:Hdec.
    + destruct (decide (Spec.pseudo_entry name)) as [Hdot|Hdot].
      * destruct (IH w1 acc fuel lf) as (w' & Heq & Hos & Hl);
          [exact Hopen1|simpl in Hfuel; lia|simpl in Hlf; lia|].
        exists w'. split; [exact Heq|]. split.
        -- eapply PosixScan.same_os_trans; [|exact Hos]. by split.
        -- rewrite Hl. done.
      * destruct fuel as [|fuel]; [simpl in Hfuel; lia|].
        destruct (IH w1 (acc ++ [Posix.DirEntry_init path name e])%list
                    fuel (S (Posix.pending h w1)) Hopen1)
          as (w' & Heq & Hos & Hl); [simpl in Hfuel; lia| |].
        { rewrite (PosixScan.pending_lookup _ _ _ Hopen1). simpl. lia. }
        exists w'. split; [|split].
        -- etrans; [exact Heq|]. now rewrite <- app_assoc.
        -- eapply PosixScan.same_os_trans; [|exact Hos]. by split.
        -- rewrite Hl. done.
    + unfold Posix.finally_close, Posix.closedir. subst w1. simpl.
      rewrite lookup_insert_eq.
      destruct cl as [e2|]; simpl; eexists;
        (split; [rewrite app_nil_r; reflexivity|]); by split.
  - unfold Posix.finally_close, Posix.closedir. simpl.
    rewrite lookup_insert_eq. unfold PosixObs.scan_raises. simpl.
    destruct cl as [e2|]; simpl; eexists;
      (split; [rewrite app_nil_r; reflexivity|]); by split.
Qed.

(** A scan of a directory that opens, consumed to its end. *)
Lemma posix_collect (w : Posix.world) path encoded st fuel :
  cd_encode (Posix.file_system_encoding w) path = Some encoded ->
  Posix.w_opendir w encoded = inr st ->
  (length (Posix.ds_reads st) < fuel)%nat ->
  exists w',
    collect (P := posix_platform) fuel (Posix.scandir path) [] w
    = (Some (PosixObs.yields (Posix.file_system_encoding w) path
                             (Posix.ds_reads st),
             PosixObs.scan_raises (Posix.file_system_encoding w) path st),
       w')
    /\ PosixObs.same_os w w'
    /\ PosixObs.lstat_count (Posix.w_trace w')
       = PosixObs.lstat_count (Posix.w_trace w).
Proof.
  intros He Ho Hf. destruct fuel as [|fuel]; [lia|].
  destruct st as [reads cl]. simpl in Hf.
  cbn [collect]. change (@p_next posix_platform) with Posix.scandir_next.
  rewrite (PosixScan.scandir_start _ _ _ He). unfold Posix.opendir.
  rewrite Ho.
  set (w1 := Posix.log _ _).
  destruct (posix_collect_from_loop path (Posix.w_fresh w) cl
              reads w1 [] fuel (S (Posix.pending (Posix.w_fresh w) w1)))
    as (w' & Heq & Hos & Hl);
    [subst w1; simpl; apply lookup_insert_eq|lia| |].
  { subst w1. unfold Posix.pending. simpl. rewrite lookup_insert_eq.
    simpl. lia. }
  exists w'. split; [exact Heq|]. split.
  - eapply PosixScan.same_os_trans; [|exact Hos]. by split.
  - rewrite Hl. done.
Qed.

Lemma win_scandir_loop_S fuel path h w :
  Win32.scandir_loop (S fuel) path h w
  = match Win32.FindNextFile h w with
    | (None, w1) =>
        let error := Win32.w_last_error w1 in
        if error =? Win32.ERROR_NO_MORE_FILES
        then Win32.finally_close path h StopIteration w1
        else Win32.finally_close path h
               (Raised (Win32.win_error error path)) w1
    | (Some data, w1) =>
        if decide (Spec.pseudo_entry (Win32.cFileName data))
        then Win32.scandir_loop fuel path h w1
        else (Yielded (Win32.DirEntry_init (Win32.cFileName data) data),
              Win32.ScanLoop path h, w1)
    end.
Proof.
  cbn [Win32.scandir_loop].
  destruct (Win32.FindNextFile h w) as [[data|] w1]; [|done].
  rewrite SpecWords.not_dot_spec. by destruct (decide _).
Qed.

Lemma win_collect_from_loop path h fin cl : forall rest w acc fuel lf,
  Win32.w_open w !! h = Some (Win32.FindStream rest fin cl) ->
  (length rest <= fuel)%nat -> (length rest < lf)%nat ->
  exists w',
    match Win32.scandir_loop lf path h w with
    | (StopIteration, _, w1) => (Some (acc, None), w1)
    | (Raised e, _, w1) => (Some (acc, Some e), w1)
    | (Yielded entry, g1, w1) =>
        collect (P := win32_platform) fuel g1 (acc ++ [entry])%list w1
    end
    = (Some ((acc ++ Win32Scans.entries_of rest)%list,
             option_map (fun e => OSError (OsErr e path))
                        (Win32Scans.scan_error (Win32.FindStream rest fin cl))),
       w').
Proof.
  induction rest as [|data rest IH]; intros w acc fuel lf Hopen Hfuel Hlf;
    (destruct lf as [|lf]; [simpl in Hlf; lia|]);
    rewrite win_scandir_loop_S; unfold Win32.FindNextFile; simpl;
    rewrite Hopen; simpl.
  - unfold Win32Scans.scan_error. simpl.
    destruct (fin =? Win32.ERROR_NO_MORE_FILES);
      unfold Win32.finally_close, Win32.FindClose; simpl; rewrite Hopen;
      destruct cl as [e2|]; simpl; eexists; rewrite app_nil_r; reflexivity.
  - unfold Win32Scans.entries_of.
    set (w1 := Win32.set_open _ _).
    assert (Hopen1 : Win32.w_open w1 !! h
                     = Some (Win32.FindStream rest fin cl))
      by (subst w1; simpl; apply lookup_insert_eq).
    destruct (decide (Spec.pseudo_entry (Win32.cFileName data)))
      as [Hdot|Hdot].
    + rewrite filter_cons_False by (intros H; by apply H).
      destruct (IH w1 acc fuel lf) as (w' & Heq);
        [exact Hopen1|simpl in Hfuel; lia|simpl in Hlf; lia|].
      exists w'. exact Heq.
    + rewrite filter_cons_True by done.
      destruct fuel as [|fuel]; [simpl in Hfuel; lia|].
      destruct (IH w1
                  (acc ++ [Win32.DirEntry_init (Win32.cFileName data) data])%list
                  fuel (S (Win32.pending h w1)) Hopen1)
        as (w' & Heq); [simpl in Hfuel; lia| |].
      { rewrite (Win32Scan.win_pending_lookup _ _ _ Hopen1). simpl. lia. }
      exists w'. etrans; [exact Heq|].
      unfold Win32Scans.entries_of, Win32Scans.scan_error. simpl.
      now rewrite <- app_assoc.
Qed.

End ScanOutcome.

(** ** The names a scan yields *)
Module Listing.

(** The names of a stream whose names all decode, as the scan yields
    them. *)
Lemma names_of_yields enc path : forall reads names,
  PosixObs.no_read_failure reads ->
  Forall2 (fun data name => cd_decode enc data = Some name)
          (PosixObs.raw_names reads) names ->
  map Posix.name (PosixObs.yields enc path reads)
  = Spec.without_pseudo_entries names
  /\ PosixObs.first_failure enc path reads = None.
Proof.
  unfold Spec.without_pseudo_entries.
  induction reads as [|[e|err] reads IH]; intros names Hr Hn;
    inversion Hr as [|? ? Hr1 Hr2]; subst; simpl in *.
  - inversion Hn. by split.
  - inversion Hn as [|? name ? names' Hd Hn']; subst. rewrite Hd.
    destruct (IH names' Hr2 Hn') as [IH1 IH2]. split; [|exact IH2].
    destruct (decide (Spec.pseudo_entry name)) as [Hdot|Hdot].
    + rewrite filter_cons_False by (intros H; by apply H). exact IH1.
    + rewrite filter_cons_True by done. simpl. now rewrite IH1.
  - done.
Qed.

(** The entries read before a name that does not decode. *)
Lemma yields_until_undecodable enc path bad after : forall before names,
  Forall2 (fun d name => cd_decode enc (Posix.d_name d) = Some name)
          before names ->
  cd_decode enc (Posix.d_name bad) = None ->
  map Posix.name
      (PosixObs.yields enc path
         (map Posix.RdEntry before ++ Posix.RdEntry bad :: after))
  = Spec.without_pseudo_entries names
  /\ PosixObs.first_failure enc path
       (map Posix.RdEntry before ++ Posix.RdEntry bad :: after)
     = Some (UnicodeDecodeError (Posix.d_name bad)).
Proof.
  unfold Spec.without_pseudo_entries.
  induction before as [|d before IH]; intros names Hn Hbad;
    inversion Hn as [|? name ? names' Hd Hn']; subst; simpl.
  - rewrite Hbad. by split.
  - rewrite Hd. destruct (IH names' Hn' Hbad) as [IH1 IH2].
    split; [|exact IH2].
    destruct (decide (Spec.pseudo_entry name)) as [Hdot|Hdot].
    + rewrite filter_cons_False by (intros H; by apply H). exact IH1.
    + rewrite filter_cons_True by done. simpl. now rewrite IH1.
Qed.

Lemma raw_names_app reads1 reads2 :
  PosixObs.raw_names (reads1 ++ reads2)
  = (PosixObs.raw_names reads1 ++ PosixObs.raw_names reads2)%list.
Proof.
  induction reads1 as [|[e|err] reads1 IH]; simpl; [done| |done].
  now rewrite IH.
Qed.

(** [list(scandir(path))] over a stream that ends in an exception. *)
Lemma posix_drain_raises path encoded st x fuel (w : Posix.world) :
  cd_encode (Posix.file_system_encoding w) path = Some encoded ->
  Posix.w_opendir w encoded = inr st ->
  PosixObs.scan_raises (Posix.file_system_encoding w) path st = Some x ->
  (length (Posix.ds_reads st) < fuel)%nat ->
  exists w', drain (P := posix_platform) fuel path w = (Some (inl x), w').
Proof.
  intros He Ho Hr Hf. unfold drain.
  destruct (PosixScan.for_each_scandir
              (fun entry acc w => ((acc ++ [entry])%list, w))
              (fun _ _ => True) w path
              ltac:(done) ltac:(intros; apply PosixScan.same_os_refl)
              ltac:(done) encoded st [] fuel He Ho Hf I)
    as (s' & w' & Heq & _ & _).
  exists w'. etrans; [exact Heq|]. now rewrite Hr.
Qed.

Lemma posix_drain path encoded reads fuel (w : Posix.world) :
  cd_encode (Posix.file_system_encoding w) path = Some encoded ->
  Posix.w_opendir w encoded = inr (Posix.DirStream reads None) ->
  PosixObs.first_failure (Posix.file_system_encoding w) path reads = None ->
  (length reads < fuel)%nat ->
  exists w',
    drain (P := posix_platform) fuel path w
    = (Some (inr (PosixObs.yields (Posix.file_system_encoding w) path
                                  reads)), w')
    /\ PosixObs.same_os w w'.
Proof.
  intros He Ho Hr Hf. unfold drain.
  destruct (PosixScan.for_each_scandir
              (fun entry acc w => ((acc ++ [entry])%list, w))
              (fun ys acc => acc = ys) w path
              ltac:(done) ltac:(intros; apply PosixScan.same_os_refl)
              ltac:(intros ys name d s w0 _ ->; reflexivity)
              encoded _ [] fuel He Ho Hf eq_refl)
    as (s' & w' & Heq & -> & Hos).
  exists w'. split; [|exact Hos]. etrans; [exact Heq|].
  unfold PosixObs.scan_raises. simpl. now rewrite Hr.
Qed.

Lemma fallback_iter path : forall names acc fuel (w : Fallback.world),
  (length names < fuel)%nat ->
  for_each (P := fallback_platform)
           (fun entry acc w => ((acc ++ [entry])%list, w))
           fuel (Fallback.ScanIter path names) acc w
  = (Some (inr (acc ++ map (Fallback.DirEntry_init path) names)%list), w).
Proof.
  induction names as [|n names IH]; intros acc fuel w Hf;
    (destruct fuel as [|fuel]; [simpl in Hf; lia|]); simpl.
  - now rewrite app_nil_r.
  - rewrite IH by (simpl in Hf; lia). now rewrite <- app_assoc.
Qed.

Lemma fallback_drain path names fuel (w : Fallback.world) :
  Fallback.w_listdir w path = inr names ->
  (length names + 1 < fuel)%nat ->
  drain (P := fallback_platform) fuel path w
  = (Some (inr (map (Fallback.DirEntry_init path) names)),
     Fallback.log (Fallback.Listdir path) w).
Proof.
  intros Ho Hf. unfold drain.
  destruct fuel as [|fuel]; [lia|]. simpl.
  unfold Fallback.os_listdir. simpl. rewrite Ho.
  destruct names as [|n names]; [done|]. simpl.
  destruct fuel as [|fuel]; [simpl in Hf; lia|].
  rewrite fallback_iter by (simpl in Hf; lia). done.
Qed.

End Listing.

(** C1.  The names that a scan yields are those of the full listing
    without the pseudo-entries [.] and [..] only as long as every name
    decodes.  POSIX, a directory that opens and whose reads and [closedir]
    succeed: when every name that the operating system reports decodes under
    the file-system codec, a scan run to its end yields, in order, the
    decoded names of the listing without the two pseudo-entries, and neither
    of the two is ever yielded.  When some name does not decode, the scan
    yields the names before it and then raises [UnicodeDecodeError]: the
    name itself and all the names after it are never yielded, although the
    listing holds them, and [list(scandir(path))] gives no name at all but
    the exception.  On the fallback branch the entries carry exactly
    the names [os.listdir] returned, which hold neither [.] nor [..]. *)
Theorem scandir_raises_on_undecodable_name :
  (forall (w : Posix.world) path encoded reads names fuel,
      cd_encode (Posix.file_system_encoding w) path = Some encoded ->
      Posix.w_opendir w encoded = inr (Posix.DirStream reads None) ->
      PosixObs.no_read_failure reads ->
      Forall2 (fun data name =>
                 cd_decode (Posix.file_system_encoding w) data = Some name)
              (PosixObs.raw_names reads) names ->
      (length reads < fuel)%nat ->
      exists ents w',
        drain (P := posix_platform) fuel path w = (Some (inr ents), w')
        /\ map Posix.name ents = Spec.without_pseudo_entries names
        /\ Forall (fun name => name <> "." /\ name <> "..")
                  (map Posix.name ents))
  /\
  (forall (w : Posix.world) path encoded before bad after names fuel,
      let reads :=
        (map Posix.RdEntry before ++ Posix.RdEntry bad :: after)%list in
      cd_encode (Posix.file_system_encoding w) path = Some encoded ->
      Posix.w_opendir w encoded = inr (Posix.DirStream reads None) ->
      Forall2 (fun d name =>
                 cd_decode (Posix.file_system_encoding w) (Posix.d_name d)
                 = Some name)
              before names ->
      cd_decode (Posix.file_system_encoding w) (Posix.d_name bad) = None ->
      (length reads < fuel)%nat ->
      exists ents w',
        collect (P := posix_platform) fuel (Posix.scandir path) [] w
        = (Some (ents, Some (UnicodeDecodeError (Posix.d_name bad))), w')
        /\ map Posix.name ents = Spec.without_pseudo_entries names
        /\ Posix.d_name bad ∈ PosixObs.raw_names reads
        /\ exists w'',
             drain (P := posix_platform) fuel path w
             = (Some (inl (UnicodeDecodeError (Posix.d_name bad))), w''))
  /\
  (forall (w : Fallback.world) path names fuel,
      Fallback.w_listdir w path = inr names ->
      Forall (fun name => ~ Spec.pseudo_entry name) names ->
      (length names + 1 < fuel)%nat ->
      exists ents w',
        drain (P := fallback_platform) fuel path w = (Some (inr ents), w')
        /\ map Fallback.name ents = Spec.without_pseudo_entries names
        /\ map Fallback.name ents = names).
Proof.
  split; [|split].
  - intros w path encoded reads names fuel He Ho Hr Hn Hf.
    destruct (Listing.names_of_yields (Posix.file_system_encoding w) path
                reads names Hr Hn) as [Hnames Hnone].
    destruct (Listing.posix_drain path encoded reads fuel w He Ho Hnone Hf)
      as (w' & Heq & _).
    eexists _, w'. split; [exact Heq|]. split; [exact Hnames|].
    rewrite Hnames. unfold Spec.without_pseudo_entries.
    apply Forall_forall. intros name Hin.
    apply list_elem_of_filter in Hin as [Hin _].
    unfold Spec.pseudo_entry in Hin. tauto.
  - intros w path encoded before bad after names fuel reads He Ho Hn Hbad Hf.
    destruct (ScanOutcome.posix_collect w path encoded _ fuel He Ho Hf)
      as (w' & Heq & _ & _).
    destruct (Listing.yields_until_undecodable
                (Posix.file_system_encoding w) path bad after before names
                Hn Hbad) as [Hnames Hfail].
    assert (Hraises : PosixObs.scan_raises (Posix.file_system_encoding w)
                        path (Posix.DirStream reads None)
                      = Some (UnicodeDecodeError (Posix.d_name bad)))
      by exact Hfail.
    eexists _, w'. split; [|split; [exact Hnames|split]].
    + etrans; [exact Heq|]. now rewrite Hraises.
    + subst reads. rewrite Listing.raw_names_app. apply elem_of_app. right.
      simpl. apply list_elem_of_here.
    + exact (Listing.posix_drain_raises path encoded _ _ fuel w He Ho
               Hraises Hf).
  - intros w path names fuel Ho Hd Hf.
    eexists _, _. split; [exact (Listing.fallback_drain _ _ _ _ Ho Hf)|].
    assert (Hn : map Fallback.name (map (Fallback.DirEntry_init path) names)
                 = names).
    { clear. induction names as [|n names IH]; simpl; [done|].
      now rewrite IH. }
    rewrite Hn. split; [|done].
    unfold Spec.without_pseudo_entries.
    clear -Hd. induction Hd as [|n names Hn _ IH]; [done|].
    rewrite filter_cons_True by done. now rewrite <- IH.
Qed.

Lemma scandir_raises_on_undecodable_name_witness :
  (exists ents w',
      drain (P := posix_platform) 7 "root" Examples.px_world
      = (Some (inr ents), w')
      /\ map Posix.name ents = ["a"; "link"; "f.txt"; "b"]
      /\ Forall (fun name => name <> "." /\ name <> "..")
                (map Posix.name ents))
  /\ (exists ents w',
        collect (P := posix_platform) 7 (Posix.scandir "odd") []
                Examples.px_world
        = (Some (ents, Some (UnicodeDecodeError Examples.latin1_name)), w')
        /\ map Posix.name ents = ["ok"]
        /\ Examples.latin1_name
           ∈ PosixObs.raw_names
               [Examples.dot; Examples.dotdot; Examples.ent 8 "ok";
                Examples.ent 8 Examples.latin1_name; Examples.ent 8 "z"]
        /\ exists w'',
             drain (P := posix_platform) 7 "odd" Examples.px_world
             = (Some (inl (UnicodeDecodeError Examples.latin1_name)), w''))
  /\ (exists ents w',
        drain (P := fallback_platform) 4 "root" Examples.fb_world
        = (Some (inr ents), w')
        /\ map Fallback.name ents = ["a"; "f.txt"]
        /\ map Fallback.name ents = ["a"; "f.txt"]).
Proof.
  split; [|split].
  - refine (proj1 scandir_raises_on_undecodable_name Examples.px_world
              "root" "root" _ ["."; ".."; "a"; "link"; "f.txt"; "b"] 7%nat
              eq_refl eq_refl _ _ _).
    + repeat constructor.
    + repeat constructor.
    + simpl. lia.
  - refine (proj1 (proj2 scandir_raises_on_undecodable_name)
              Examples.px_world "odd" "odd"
              [Posix.Dirent 4 "."; Posix.Dirent 4 ".."; Posix.Dirent 8 "ok"]
              (Posix.Dirent 8 Examples.latin1_name)
              [Examples.ent 8 "z"] ["."; ".."; "ok"] 7%nat
              eq_refl eq_refl _ eq_refl _).
    + repeat constructor.
    + simpl. lia.
  - refine (proj2 (proj2 scandir_raises_on_undecodable_name)
              Examples.fb_world "root" _ 4%nat eq_refl _ _).
    + repeat constructor; intros [H|H]; discriminate H.
    + simpl. lia.
Defined.

(** ** The walker *)
Module WalkFacts.

Section Generic.
Context {P : Platform}.

(** An invariant of the loop state that the body keeps holds at the end
    of the loop. *)
Lemma for_each_invariant {S} (body : p_entry -> S -> p_world -> S * p_world)
      (I : S -> Prop) :
  (forall e s w, I s -> I (body e s w).1) ->
  forall fuel g s w s' w',
    I s -> for_each body fuel g s w = (Some (inr s'), w') -> I s'.
Proof.
  intros Hbody. induction fuel as [|fuel IH]; intros g s w s' w' Hs Heq;
    [discriminate|].
  simpl in Heq. destruct (p_next g w) as [[[entry| |e] g1] w1].
  - pose proof (Hbody entry s w1 Hs) as Hs1.
    destruct (body entry s w1) as [s1 w2]. eauto.
  - now inversion Heq; subst.
  - discriminate.
Qed.

Lemma entries_by_name_from (dirs : list p_entry) :
  forall (m : gmap string p_entry) n,
    foldl (fun m entry => <[p_name entry := entry]> m) m dirs !! n = None
    <-> m !! n = None /\ n ∉ map p_name dirs.
Proof.
  induction dirs as [|d dirs IH]; intros m n; simpl.
  - split; [intros H; split; [done|]; apply not_elem_of_nil|by intros [? _]].
  - rewrite IH, not_elem_of_cons.
    destruct (decide (p_name d = n)) as [->|Hne].
    + rewrite lookup_insert_eq. split; [by intros [? _]|by intros [_ [? _]]].
    + rewrite lookup_insert_ne by done. split.
      * intros [? ?]. repeat split; auto.
      * intros [? [? ?]]. split; auto.
Qed.

Lemma entries_by_name_None dirs n :
  entries_by_name dirs !! n = None <-> n ∉ map p_name dirs.
Proof.
  unfold entries_by_name. rewrite entries_by_name_from.
  rewrite lookup_empty. split; [by intros [_ ?]|by split].
Qed.

Lemma entries_by_name_from_Some (dirs : list p_entry) :
  forall (m : gmap string p_entry) n e,
    foldl (fun m entry => <[p_name entry := entry]> m) m dirs !! n = Some e ->
    m !! n = Some e \/ e ∈ dirs.
Proof.
  induction dirs as [|d dirs IH]; intros m n e; simpl; [by left|].
  intros H. destruct (IH _ _ _ H) as [H'|H'].
  - destruct (decide (p_name d = n)) as [Heq|Hne].
    + rewrite Heq, lookup_insert_eq in H'. inversion H'; subst.
      right. apply list_elem_of_here.
    + rewrite lookup_insert_ne in H' by done. by left.
  - right. by apply list_elem_of_further.
Qed.

Lemma entries_by_name_Some dirs n e :
  entries_by_name dirs !! n = Some e -> e ∈ dirs.
Proof.
  intros H. destruct (entries_by_name_from_Some _ _ _ _ H) as [H'|H'];
    [|done]. now rewrite lookup_empty in H'.
Qed.

Lemma resolve_missing (by_name : gmap string p_entry) names n :
  n ∈ names -> by_name !! n = None ->
  resolve by_name names = inl (NameError "TODO_DirEntry").
Proof.
  induction names as [|m names IH]; intros Hin Hn;
    [by apply not_elem_of_nil in Hin|].
  simpl. destruct (by_name !! m) as [e|] eqn:Hm; [|done].
  apply elem_of_cons in Hin as [->|Hin]; [congruence|].
  now rewrite (IH Hin Hn).
Qed.

Lemma resolve_members (by_name : gmap string p_entry) :
  forall names ds,
    resolve by_name names = inr ds ->
    Forall (fun e => exists n, by_name !! n = Some e) ds.
Proof.
  induction names as [|m names IH]; intros ds H; simpl in H.
  - inversion H. constructor.
  - destruct (by_name !! m) as [e|] eqn:Hm; [|discriminate].
    destruct (resolve by_name names) as [x|ds']; [discriminate|].
    inversion H; subst. constructor; [by exists m|by apply IH].
Qed.
End Generic.

End WalkFacts.

(** C4.  The walker honours removals and reorderings, but a name that the
    consumer adds is not looked up afresh: in top-down mode, when the edited
    [dir_names] holds a name that no scanned sub-directory bears, the walk
    yields the triple of [top] and then ends with [NameError] (the name
    [TODO_DirEntry] is bound nowhere), before it has descended into any
    sub-directory. *)
Theorem walk_added_name_raises {P : Platform}
        (edit : triple -> list string)
        (onerror : option (oserror -> option exn)) (followlinks : bool)
        (fuel : nat) (top : string) (w w1 : p_world)
        (dirs nondirs : list p_entry) (n : string) :
  scan_entries fuel top w = (Some (inr (dirs, nondirs)), w1) ->
  n ∈ edit (top, map p_name dirs, map p_name nondirs) ->
  n ∉ map p_name dirs ->
  walk edit true onerror followlinks (S fuel) top w
  = ([Triple (top, map p_name dirs, map p_name nondirs)],
     Failed (NameError "TODO_DirEntry"), w1).
Proof.
  intros Hscan Hin Hnot. simpl. rewrite Hscan.
  rewrite (WalkFacts.resolve_missing _ _ n Hin); [done|].
  now apply WalkFacts.entries_by_name_None.
Qed.

Lemma walk_added_name_raises_witness :
  (walk (P := posix_platform) Examples.add_zzz true (Some Examples.note)
         false 9 "root"
        Examples.px_world).1
  = ([Triple ("root", ["a"; "b"], ["link"; "f.txt"])],
     Failed (NameError "TODO_DirEntry")).
Proof.
  let r := eval vm_compute in
      (scan_entries (P := posix_platform) 8 "root" Examples.px_world) in
  match r with
  | (Some (inr (?ds, ?nds)), ?w1) =>
      refine (f_equal fst
                (walk_added_name_raises (P := posix_platform)
                   Examples.add_zzz (Some Examples.note) false 8 "root"
                   Examples.px_world
                   w1 ds nds "zzz" _ _ _))
  end.
  - vm_compute. reflexivity.
  - vm_compute. repeat constructor.
  - vm_compute. intros H.
    repeat (apply elem_of_cons in H as [H|H]; [discriminate H|]).
    by apply not_elem_of_nil in H.
Defined.

(** The part of C4 that the code does carry out: a name removed from
    [dir_names] is not descended into, the names left are. *)
Example walk_pruned_name_not_visited :
  (walk (P := posix_platform) Examples.prune_b true (Some Examples.note)
         false 9 "root"
        Examples.px_world).1
  = ([Triple ("root", ["a"; "b"], ["link"; "f.txt"]);
      Triple ("root/a", [], ["x.txt"])], Finished)
  /\ (walk (P := posix_platform) no_edit true (Some Examples.note)
            false 9 "root"
           Examples.px_world).1
     = ([Triple ("root", ["a"; "b"], ["link"; "f.txt"]);
         Triple ("root/a", [], ["x.txt"]);
         Triple ("root/b", [], ["y.txt"])], Finished).
Proof. split; reflexivity. Qed.

(** ** The walker on POSIX *)
Module PosixWalk.
Import Posix PosixObs.

Lemma lstat_open self w : w_open (lstat self w).2 = w_open w.
Proof.
  unfold lstat, os_lstat. destruct (_lstat self); [done|]. simpl.
  destruct (w_lstat w _); done.
Qed.

Lemma lstat_same_os self w : same_os w (lstat self w).2.
Proof.
  unfold lstat, os_lstat. destruct (_lstat self); [by split|]. simpl.
  destruct (w_lstat w _); by split.
Qed.


Lemma classify_open dt by_mode self w :
  w_open (classify dt by_mode self w).2 = w_open w.
Proof.
  unfold classify. destruct (negb _); [done|].
  pose proof (lstat_open self w) as H.
  destruct (lstat self w) as [[[e|st] self1] w1]; exact H.
Qed.

Lemma classify_same_os dt by_mode self w :
  same_os w (classify dt by_mode self w).2.
Proof.
  unfold classify. destruct (negb _); [by split|].
  pose proof (lstat_same_os self w) as H.
  destruct (lstat self w) as [[[e|st] self1] w1]; exact H.
Qed.

Lemma sort_entry_open e acc w :
  w_open (sort_entry (P := posix_platform) e acc w).2 = w_open w.
Proof.
  unfold sort_entry. destruct acc as [dirs nondirs]. simpl.
  pose proof (classify_open DT_DIR mode_isdir e w) as H.
  fold isdir in H. destruct (isdir e w) as [[[|] e1] w1]; exact H.
Qed.

Lemma sort_entry_same_os e acc w :
  same_os w (sort_entry (P := posix_platform) e acc w).2.
Proof.
  unfold sort_entry. destruct acc as [dirs nondirs]. simpl.
  pose proof (classify_same_os DT_DIR mode_isdir e w) as H.
  fold isdir in H. destruct (isdir e w) as [[[|] e1] w1]; exact H.
Qed.


(** *** Entries among the directories are never links *)

Lemma isdir_true_dir_like e w e1 w1 :
  isdir e w = (true, e1, w1) -> dir_like e1.
Proof.
  unfold isdir, classify.
  destruct (Z.eqb_spec (d_type (dirent_of e)) DT_UNKNOWN) as [Hu|Hu]; simpl.
  - unfold lstat, os_lstat. destruct (_lstat e) as [st|] eqn:Hc.
    + intros H. inversion H; subst. right. split; [done|]. by exists st.
    + simpl. destruct (w_lstat w _) as [err|st]; intros H;
        inversion H; subst.
      right. split; [done|]. by exists st.
  - intros H. inversion H; subst. left. now apply Z.eqb_eq.
Qed.

Lemma islink_dir_like e w : dir_like e -> islink e w = (false, e, w).
Proof.
  intros [Hd|(Hu & st & Hc & Hm)]; unfold islink, classify.
  - rewrite Hd. done.
  - rewrite Hu. simpl. unfold lstat. rewrite Hc.
    f_equal. f_equal. unfold mode_isdir, mode_islink in *.
    apply Z.eqb_eq in Hm. rewrite Hm. done.
Qed.

Lemma scan_entries_dir_like fuel top w dirs nondirs w1 :
  scan_entries (P := posix_platform) fuel top w
  = (Some (inr (dirs, nondirs)), w1) ->
  Forall dir_like dirs.
Proof.
  intros H.
  refine (WalkFacts.for_each_invariant (P := posix_platform) sort_entry
            (fun acc => Forall dir_like acc.1) _ _ _ _ _ _ _ _ H);
    [|constructor].
  intros e [ds nds] w0 Hds. unfold sort_entry. simpl in *.
  destruct (isdir e w0) as [[[|] e1] w2] eqn:Hi; simpl; [|done].
  apply Forall_app. split; [done|]. constructor; [|constructor].
  eapply isdir_true_dir_like; eauto.
Qed.

Lemma resolve_dir_like dirs names ds :
  Forall dir_like dirs ->
  resolve (P := posix_platform)
          (entries_by_name (P := posix_platform) dirs) names = inr ds ->
  Forall dir_like ds.
Proof.
  intros Hd Hr. apply WalkFacts.resolve_members in Hr.
  eapply Forall_impl; [exact Hr|]. intros e [n Hn]. simpl.
  apply WalkFacts.entries_by_name_Some in Hn.
  rewrite Forall_forall in Hd. by apply Hd.
Qed.

(** With directories that are never links, the [followlinks] test always
    passes. *)
Lemma walk_dirs_followlinks rec1 rec2 top :
  (forall p w, rec1 p w = rec2 p w) ->
  forall dirs w,
    Forall dir_like dirs ->
    walk_dirs (P := posix_platform) true rec1 top dirs w
    = walk_dirs (P := posix_platform) false rec2 top dirs w.
Proof.
  intros Hrec. induction dirs as [|d dirs IH]; intros w Hd; [done|].
  inversion Hd as [|? ? Hd1 Hd2]; subst. simpl.
  rewrite (islink_dir_like d w Hd1). simpl. rewrite Hrec.
  destruct (rec2 (join top (name d)) w) as [[evs [| |]] w2]; try done.
  now rewrite IH.
Qed.

Lemma walk_followlinks_irrelevant edit topdown onerror fuel :
  forall top w,
    walk (P := posix_platform) edit topdown onerror true fuel top w
    = walk (P := posix_platform) edit topdown onerror false fuel top w.
Proof.
  induction fuel as [|fuel IH]; intros top w; [done|]. simpl.
  destruct (scan_entries fuel top w) as [[[x|[dirs nondirs]]|] w1] eqn:Hs;
    [by destruct x| |done].
  pose proof (scan_entries_dir_like _ _ _ _ _ _ Hs) as Hd.
  destruct topdown.
  - destruct (resolve _ _) as [e|ds] eqn:Hr; [done|].
    rewrite (walk_dirs_followlinks _ _ top IH ds w1); [done|].
    eapply resolve_dir_like; eauto.
  - now rewrite (walk_dirs_followlinks _ _ top IH dirs w1 Hd).
Qed.

(** The walker descends into every entry that is among the directories. *)
Lemma walk_dirs_cons followlinks walk_rec top entry rest w :
  dir_like entry ->
  walk_dirs (P := posix_platform) followlinks walk_rec top (entry :: rest) w
  = match walk_rec (join top (name entry)) w with
    | (evs, Finished, w2) =>
        let '(evs', e, w3) :=
          walk_dirs (P := posix_platform) followlinks walk_rec top rest w2 in
        ((evs ++ evs')%list, e, w3)
    | (evs, e, w2) => (evs, e, w2)
    end.
Proof.
  intros Hd. simpl. destruct followlinks; [done|].
  now rewrite (islink_dir_like entry w Hd).
Qed.

End PosixWalk.

(** C5.  On POSIX the walker never lists a symbolic link to a directory
    among the sub-directories and never descends into one, whatever
    [followlinks] says: [isdir()] answers from [d_type] or from [lstat],
    neither of which follows the link, so the link lands in the list of
    non-directories; the entries that do reach the list of directories are
    never links, which makes the test of [followlinks] pass for all of them.
    Hence a walk with [followlinks] on is the same as one with it off; on
    the tree [root/{a/, b/, f.txt, link -> a}] the name [link] is yielded
    among the file names and no triple for [root/link] is produced in either
    mode. *)
Theorem posix_walk_ignores_followlinks :
  (forall edit topdown onerror fuel top (w : Posix.world),
      walk (P := posix_platform) edit topdown onerror true fuel top w
      = walk (P := posix_platform) edit topdown onerror false fuel top w)
  /\ (walk (P := posix_platform) no_edit true (Some Examples.note) true 9 "root"
           Examples.px_world).1
     = ([Triple ("root", ["a"; "b"], ["link"; "f.txt"]);
         Triple ("root/a", [], ["x.txt"]);
         Triple ("root/b", [], ["y.txt"])], Finished)
  /\ (walk (P := posix_platform) no_edit true (Some Examples.note)
            false 9 "root"
           Examples.px_world).1
     = ([Triple ("root", ["a"; "b"], ["link"; "f.txt"]);
         Triple ("root/a", [], ["x.txt"]);
         Triple ("root/b", [], ["y.txt"])], Finished).
Proof.
  split; [|split].
  - intros. apply PosixWalk.walk_followlinks_irrelevant.
  - vm_compute. reflexivity.
  - vm_compute. reflexivity.
Qed.

(** On Windows the same walker does what C5 says: the directory symbolic
    link is listed among the sub-directories, and a triple for it is
    produced exactly when [followlinks] is on. *)
Example win32_walk_follows_links_on_request :
  (walk (P := win32_platform) no_edit true (Some Examples.note) false 9 "root"
        Examples.win_tree_world).1
  = ([Triple ("root", ["a"; "link"], []);
      Triple (Win32.join "root" "a", [], ["x.txt"])], Finished)
  /\ (walk (P := win32_platform) no_edit true (Some Examples.note) true 9 "root"
           Examples.win_tree_world).1
     = ([Triple ("root", ["a"; "link"], []);
         Triple (Win32.join "root" "a", [], ["x.txt"]);
         Triple (Win32.join "root" "link", [], ["x.txt"])], Finished).
Proof. split; vm_compute; reflexivity. Qed.



Lemma unknown_hint_classifies_from_status_witness :
  Posix.isdir Examples.px_a_unknown Examples.px_world
  = (true,
     Posix.mkDirEntry "root" "a" (Posix.Dirent Posix.DT_UNKNOWN "a")
                      (Some (Examples.stat_of Examples.mode_dir)),
     Posix.log (Posix.Lstat "root/a") Examples.px_world)
  /\ Posix.isfile Examples.px_a_unknown Examples.px_world
     = (false,
        Posix.mkDirEntry "root" "a" (Posix.Dirent Posix.DT_UNKNOWN "a")
                         (Some (Examples.stat_of Examples.mode_dir)),
        Posix.log (Posix.Lstat "root/a") Examples.px_world)
  /\ (Posix.isdir Examples.px_gone Examples.px_world
      = (false, Examples.px_gone,
         Posix.log (Posix.Lstat "root/gone") Examples.px_world)
      /\ Posix.lstat Examples.px_gone Examples.px_world
         = (inl (OsErr Examples.ENOENT "root/gone"), Examples.px_gone,
            Posix.log (Posix.Lstat "root/gone") Examples.px_world))
  /\ Fallback.isdir Examples.fb_gone Examples.fb_world
     = (false, Examples.fb_gone,
        Fallback.log (Fallback.Lstat "root/gone") Examples.fb_world).
Proof.
  pose proof (fun q => proj1 unknown_hint_classifies_from_status
                Examples.px_a_unknown Examples.px_world q eq_refl) as Ha.
  pose proof (proj1 unknown_hint_classifies_from_status
                Examples.px_gone Examples.px_world Spec.Directory eq_refl)
    as Hg.
  pose proof (proj2 unknown_hint_classifies_from_status
                Examples.fb_gone Examples.fb_world Spec.Directory) as Hf.
  split; [|split; [|split; [split|]]].
  - exact (proj1 (proj1 (Ha Spec.Directory)
                    (Examples.stat_of Examples.mode_dir) eq_refl eq_refl)).
  - exact (proj1 (proj1 (Ha Spec.Regular)
                    (Examples.stat_of Examples.mode_dir) eq_refl eq_refl)).
  - exact (proj1 (proj1 (proj2 Hg) Examples.ENOENT eq_refl eq_refl)).
  - exact (proj2 (proj1 (proj2 Hg) Examples.ENOENT eq_refl eq_refl)).
  - exact (proj1 (proj1 (proj2 Hf) Examples.ENOENT eq_refl eq_refl)).
Defined.

(** * Further properties of the code *)

(** X1.  A POSIX scan consumed to its end.  When the path encodes and the
    directory opens, the scan yields exactly the entries read before the
    first read that fails or name that does not decode, [.] and [..] left
    out, each a fresh [DirEntry] holding the scanned path, the decoded name
    and the [dirent] that was read; it then stops, or raises: [OSError] for
    the path with the errno of [closedir] when that fails, else [OSError]
    with the errno left by the failing read, or [UnicodeDecodeError] for the
    name that did not decode.  The scan makes no status query.  When the
    path does not encode, the first [__next__] raises [UnicodeEncodeError]
    and no native call is made. *)
Theorem posix_scan_outcome (w : Posix.world) (path : string) (fuel : nat) :
  (forall encoded st,
      cd_encode (Posix.file_system_encoding w) path = Some encoded ->
      Posix.w_opendir w encoded = inr st ->
      (length (Posix.ds_reads st) < fuel)%nat ->
      exists w',
        collect (P := posix_platform) fuel (Posix.scandir path) [] w
        = (Some (PosixObs.yields (Posix.file_system_encoding w) path
                                 (Posix.ds_reads st),
                 PosixObs.scan_raises (Posix.file_system_encoding w) path
                                      st), w')
        /\ PosixObs.same_os w w'
        /\ PosixObs.lstat_count (Posix.w_trace w')
           = PosixObs.lstat_count (Posix.w_trace w))
  /\ (cd_encode (Posix.file_system_encoding w) path = None ->
      collect (P := posix_platform) (S fuel) (Posix.scandir path) [] w
      = (Some ([], Some (UnicodeEncodeError path)), w)).
Proof.
  split.
  - intros encoded st He Ho Hf.
    exact (ScanOutcome.posix_collect w path encoded st fuel He Ho Hf).
  - intros He. cbn [collect].
    change (@p_next posix_platform) with Posix.scandir_next.
    unfold Posix.scandir. cbn [Posix.scandir_next]. now rewrite He.
Qed.

Lemma posix_scan_outcome_witness :
  (exists w',
      collect (P := posix_platform) 5 (Posix.scandir "flaky") []
              Examples.px_world
      = (Some ([Posix.mkDirEntry "flaky" "one" (Posix.Dirent 8 "one") None],
               Some (OSError (OsErr Examples.EIO "flaky"))), w')
      /\ PosixObs.same_os Examples.px_world w'
      /\ PosixObs.lstat_count (Posix.w_trace w')
         = PosixObs.lstat_count (Posix.w_trace Examples.px_world))
  /\ (exists w',
        collect (P := posix_platform) 6 (Posix.scandir "odd") []
                Examples.px_world
        = (Some ([Posix.mkDirEntry "odd" "ok" (Posix.Dirent 8 "ok") None],
                 Some (UnicodeDecodeError Examples.latin1_name)), w')
        /\ PosixObs.same_os Examples.px_world w'
        /\ PosixObs.lstat_count (Posix.w_trace w')
           = PosixObs.lstat_count (Posix.w_trace Examples.px_world))
  /\ collect (P := posix_platform) 1 (Posix.scandir Examples.latin1_name) []
             Examples.px_world
     = (Some ([], Some (UnicodeEncodeError Examples.latin1_name)),
        Examples.px_world).
Proof.
  split; [|split].
  - refine (proj1 (posix_scan_outcome Examples.px_world "flaky" 5)
              "flaky" _ eq_refl eq_refl _).
    vm_compute. lia.
  - refine (proj1 (posix_scan_outcome Examples.px_world "odd" 6)
              "odd" _ eq_refl eq_refl _).
    vm_compute. lia.
  - exact (proj2 (posix_scan_outcome Examples.px_world Examples.latin1_name
                    0) eq_refl).
Defined.

(** X2.  A Windows scan consumed to its end yields an entry for every
    record the find calls filled in, the one of [FindFirstFile] first, the
    records named [.] and [..] (and no others) left out; it then stops when
    [FindNextFile] gave up with [ERROR_NO_MORE_FILES] and [FindClose]
    succeeded, and otherwise raises the error for the path: with the code of
    [FindClose] when that fails, else with the code [FindNextFile] gave up
    with. *)
Theorem win32_scan_outcome (w : Win32.world) (path wildcard : string)
        (first : Win32.WIN32_FIND_DATAW) (s : Win32.find_stream)
        (fuel : nat) :
  Win32.w_find w (Win32.join path wildcard) = inr (first, s) ->
  (length (Win32.fs_rest s) + 1 < fuel)%nat ->
  exists w',
    collect (P := win32_platform) fuel (Win32.scandir path wildcard) [] w
    = (Some (Win32Scans.entries_of (first :: Win32.fs_rest s),
             option_map (fun e => OSError (OsErr e path))
                        (Win32Scans.scan_error s)), w').
Proof.
  intros Ho Hf. destruct fuel as [|fuel]; [lia|].
  destruct s as [rest fin cl]. simpl in Hf.
  simpl. unfold Win32.FindFirstFile. rewrite Ho.
  set (w1 := Win32.log _ _).
  assert (Hopen1 : Win32.w_open w1 !! Win32.w_fresh w
                   = Some (Win32.FindStream rest fin cl))
    by (subst w1; simpl; apply lookup_insert_eq).
  unfold Win32Scans.entries_of. rewrite SpecWords.not_dot_spec.
  destruct (decide (Spec.pseudo_entry (Win32.cFileName first)))
    as [Hdot|Hdot].
  - rewrite filter_cons_False by (intros H; by apply H).
    destruct (ScanOutcome.win_collect_from_loop path (Win32.w_fresh w) fin cl
                rest w1 [] fuel (S (Win32.pending (Win32.w_fresh w) w1))
                Hopen1)
      as (w' & Heq); [lia| |].
    { rewrite (Win32Scan.win_pending_lookup _ _ _ Hopen1). simpl. lia. }
    exists w'. exact Heq.
  - rewrite filter_cons_True by done.
    destruct fuel as [|fuel]; [lia|].
    destruct (ScanOutcome.win_collect_from_loop path (Win32.w_fresh w) fin cl
                rest w1 [Win32.DirEntry_init (Win32.cFileName first) first]
                fuel (S (Win32.pending (Win32.w_fresh w) w1)) Hopen1)
      as (w' & Heq); [lia| |].
    { rewrite (Win32Scan.win_pending_lookup _ _ _ Hopen1). simpl. lia. }
    exists w'. exact Heq.
Qed.

Lemma win32_scan_outcome_witness :
  exists w',
    collect (P := win32_platform) 6 (Win32.scandir "C:dir" "*.*") []
            Examples.win_world
    = (Some ([Win32.mkDirEntry "a" None (Win32.FindData 16 0 0 "a");
              Win32.mkDirEntry "f.txt" None
                               (Win32.FindData 32 0 120 "f.txt")],
             None), w').
Proof.
  refine (win32_scan_outcome Examples.win_world "C:dir" "*.*" _ _ 6
            eq_refl _).
  vm_compute. lia.
Defined.

(** ** Conversion of Windows find data *)
Module FindData.

Lemma lor_shiftl_add high low :
  0 <= low < 2 ^ 32 ->
  Z.lor (Z.shiftl high 32) low = high * 2 ^ 32 + low.
Proof.
  intros Hlow.
  assert (Hdisj : Z.land (Z.shiftl high 32) low = 0).
  { apply Z.bits_inj'. intros n Hn.
    rewrite Z.land_spec, Z.bits_0.
    destruct (Z.lt_ge_cases n 32) as [Hlt|Hge].
    - rewrite Z.shiftl_spec_low by lia. done.
    - assert (Z.testbit low n = false) as ->; [|apply andb_false_r].
      destruct (Z.eq_dec low 0) as [->|Hnz]; [apply Z.bits_0|].
      apply Z.bits_above_log2; [lia|].
      assert (Z.log2 low < 32); [|lia].
      apply Z.log2_lt_pow2; lia. }
  rewrite <- Z.lxor_lor by exact Hdisj.
  rewrite <- Z.add_nocarry_lxor by exact Hdisj.
  now rewrite Z.shiftl_mul_pow2 by lia.
Qed.

End FindData.

(** X3.  The size that [find_data_to_stat] reports is the 64-bit number
    whose high and low halves are [nFileSizeHigh] and [nFileSizeLow]:
    [high * 2^32 + low], whenever the low half is a 32-bit value; both
    halves can be read back from it. *)
Theorem find_data_size_combines_halves (data : Win32.WIN32_FIND_DATAW) :
  0 <= Win32.nFileSizeLow data < 2 ^ 32 ->
  let size := st_size (Win32.find_data_to_stat data) in
  size = Win32.nFileSizeHigh data * 2 ^ 32 + Win32.nFileSizeLow data
  /\ Z.shiftr size 32 = Win32.nFileSizeHigh data
  /\ Z.land size (Z.ones 32) = Win32.nFileSizeLow data.
Proof.
  intros Hlow size. subst size. unfold Win32.find_data_to_stat. simpl.
  rewrite (FindData.lor_shiftl_add _ _ Hlow). split; [done|]. split.
  - rewrite Z.shiftr_div_pow2 by lia.
    rewrite Z.div_add_l by lia. rewrite Z.div_small by lia. lia.
  - rewrite Z.land_ones by lia.
    rewrite Z.add_comm, Z.mod_add by lia. now apply Z.mod_small.
Qed.

Lemma find_data_size_combines_halves_witness :
  st_size (Win32.find_data_to_stat (Win32.FindData 32 3 120 "big.bin"))
  = 3 * 2 ^ 32 + 120
  /\ Z.shiftr
       (st_size (Win32.find_data_to_stat (Win32.FindData 32 3 120 "big.bin")))
       32 = 3
  /\ Z.land
       (st_size (Win32.find_data_to_stat (Win32.FindData 32 3 120 "big.bin")))
       (Z.ones 32) = 120.
Proof.
  refine (find_data_size_combines_halves
            (Win32.FindData 32 3 120 "big.bin") _).
  simpl. lia.
Defined.

(** X4.  The permission bits of the mode that [find_data_to_stat] builds:
    the read bits are always set, the write bits exactly when the read-only
    attribute is not set, the execute bits exactly when the directory
    attribute is set; nothing above the file-type bits is ever set, and the
    fields that Windows does not report are zero. *)
Theorem find_data_permission_bits (data : Win32.WIN32_FIND_DATAW) :
  let st := Win32.find_data_to_stat data in
  let attributes := Win32.dwFileAttributes data in
  Z.land (st_mode st) 0x124 = 0x124
  /\ Z.land (st_mode st) 0x92
     = (if Z.land attributes Win32.FILE_ATTRIBUTE_READONLY =? 0
        then 0x92 else 0)
  /\ Z.land (st_mode st) 0x49
     = (if Z.land attributes Win32.FILE_ATTRIBUTE_DIRECTORY =? 0
        then 0 else 0x49)
  /\ Z.land (st_mode st) (Z.lor S_IFMT_mask 0x1FF) = st_mode st
  /\ (st_ino st, st_dev st, st_nlink st, st_uid st, st_gid st)
     = (0, 0, 0, 0, 0).
Proof.
  intros st attributes. subst st attributes.
  unfold Win32.find_data_to_stat. simpl.
  destruct (Z.land _ Win32.FILE_ATTRIBUTE_DIRECTORY =? 0);
    destruct (Z.land _ Win32.FILE_ATTRIBUTE_READONLY =? 0);
    destruct (Z.land _ Win32.FILE_ATTRIBUTE_REPARSE_POINT =? 0);
    repeat split; reflexivity.
Qed.

(** ** The walker on every platform *)
Module WalkGeneral.
Section Generic.
Context {P : Platform}.

Lemma walk_dirs_ext followlinks rec1 rec2 top :
  (forall p w, rec1 p w = rec2 p w) ->
  forall dirs w,
    walk_dirs followlinks rec1 top dirs w
    = walk_dirs followlinks rec2 top dirs w.
Proof.
  intros Hrec. induction dirs as [|d dirs IH]; intros w; [done|]. simpl.
  destruct (if followlinks then (true, w)
            else let '(b, _, w1) := p_islink d w in (negb b, w1))
    as [[|] w1]; [|apply IH].
  rewrite Hrec.
  destruct (rec2 (p_join top (p_name d)) w1) as [[evs [| |]] w2]; try done.
  now rewrite IH.
Qed.

Lemma walk_dirs_ending (Q : ending -> Prop) followlinks walk_rec top :
  Q Finished ->
  (forall p w, Q (walk_rec p w).1.2) ->
  forall dirs w, Q (walk_dirs followlinks walk_rec top dirs w).1.2.
Proof.
  intros HQ Hrec. induction dirs as [|d dirs IH]; intros w; [exact HQ|].
  simpl.
  destruct (if followlinks then (true, w)
            else let '(b, _, w1) := p_islink d w in (negb b, w1))
    as [[|] w1]; [|apply IH].
  pose proof (Hrec (p_join top (p_name d)) w1) as Ht.
  destruct (walk_rec (p_join top (p_name d)) w1) as [[evs e] w2].
  simpl in Ht.
  destruct e; [|exact Ht|exact Ht].
  pose proof (IH w2) as Ht2.
  destruct (walk_dirs followlinks walk_rec top dirs w2) as [[evs' e'] w3].
  exact Ht2.
Qed.

Lemma resolve_error by_name names x :
  resolve by_name names = inl x -> x = NameError "TODO_DirEntry".
Proof.
  induction names as [|n names IH]; simpl; [discriminate|].
  destruct (by_name !! n); [|by intros [= <-]].
  destruct (resolve by_name names); [|discriminate].
  intros [= <-]. now apply IH.
Qed.

(** The only [OSError] that leaves a walk is one the handler raised. *)
Lemma walk_no_oserror edit topdown onerror followlinks fuel :
  WalkObs.handler_never WalkObs.is_oserror onerror ->
  forall top w,
    WalkObs.never WalkObs.is_oserror
      (walk edit topdown onerror followlinks fuel top w).1.2.
Proof.
  intros Hh. induction fuel as [|fuel IH]; intros top w; [exact I|].
  cbn [walk].
  destruct (scan_entries fuel top w) as [[[x|[dirs nondirs]]|] w1].
  - destruct x as [oe|n|o|o|c]; simpl; try (intros []).
    destruct onerror as [handler|]; simpl; [|exact I].
    specialize (Hh oe). simpl in Hh.
    destruct (handler oe); [exact Hh|exact I].
  - destruct topdown.
    + destruct (resolve _ _) as [x|ds] eqn:Hr; simpl.
      * apply resolve_error in Hr. subst x. intros [].
      * pose proof (walk_dirs_ending (WalkObs.never WalkObs.is_oserror)
                      followlinks _ top I IH ds w1) as Ht.
        destruct (walk_dirs _ _ _ ds w1) as [[evs e] w2]. exact Ht.
    + pose proof (walk_dirs_ending (WalkObs.never WalkObs.is_oserror)
                    followlinks _ top I IH dirs w1) as Ht.
      destruct (walk_dirs _ _ _ dirs w1) as [[evs e] w2]. simpl in Ht.
      destruct e; simpl; [exact I|exact Ht|exact I].
  - exact I.
Qed.

Lemma entries_by_name_keys (dirs : list p_entry) :
  forall m : gmap string p_entry,
    (forall n e, m !! n = Some e -> p_name e = n) ->
    forall n e,
      foldl (fun m entry => <[p_name entry := entry]> m) m dirs !! n = Some e ->
      p_name e = n.
Proof.
  induction dirs as [|d dirs IH]; intros m Hm n e; simpl; [apply Hm|].
  apply IH. intros n' e'.
  destruct (decide (p_name d = n')) as [Heq|Hne].
  - rewrite <- Heq, lookup_insert_eq. by intros [= <-].
  - rewrite lookup_insert_ne by done. apply Hm.
Qed.

Lemma resolve_present dirs : forall names,
  names ⊆ map p_name dirs ->
  exists ds,
    resolve (entries_by_name dirs) names = inr ds
    /\ map p_name ds = names
    /\ Forall (fun e => e ∈ dirs) ds.
Proof.
  induction names as [|n names IH]; intros Hsub; simpl.
  - exists []. by repeat split.
  - destruct (entries_by_name dirs !! n) as [e|] eqn:Hn.
    + destruct IH as (ds & Hr & Hm & Hf).
      { intros x Hx. apply Hsub. by apply list_elem_of_further. }
      rewrite Hr. exists (e :: ds). split; [done|]. split.
      * simpl. f_equal; [|done].
        eapply (entries_by_name_keys dirs ∅); [|exact Hn].
        intros ? ?. by rewrite lookup_empty.
      * constructor; [|done]. eapply WalkFacts.entries_by_name_Some; eauto.
    + apply WalkFacts.entries_by_name_None in Hn.
      destruct Hn. apply Hsub. apply list_elem_of_here.
Qed.

End Generic.
End WalkGeneral.

(** X5.  Bottom-up, the consumer's edits of [dir_names] change nothing: the
    list it is handed is built after the recursion, so two walks that differ
    only in the consumer produce the same triples, handler calls, ending and
    native calls, on every platform. *)
Theorem bottom_up_walk_ignores_edits {P : Platform}
        (edit edit' : triple -> list string)
        (onerror : option (oserror -> option exn)) (followlinks : bool)
        (fuel : nat) (top : string) (w : p_world) :
  walk edit false onerror followlinks fuel top w
  = walk edit' false onerror followlinks fuel top w.
Proof.
  revert top w. induction fuel as [|fuel IH]; intros top w; [done|].
  cbn [walk].
  destruct (scan_entries fuel top w) as [[[x|[dirs nondirs]]|] w1];
    [by destruct x| |done].
  now rewrite (WalkGeneral.walk_dirs_ext followlinks _ _ top IH dirs w1).
Qed.

(** X6.  A walk lets no [OSError] out on its own, on any platform and at
    any depth of the tree: whatever the scans raise, the only [OSError] that
    can leave a walk is one that the caller's error handler raises.  So
    without a handler, or with a handler that returns or raises exceptions
    of other classes, a walk never ends in an [OSError]. *)
Theorem walk_never_raises_oserror {P : Platform}
        (edit : triple -> list string) (topdown : bool)
        (onerror : option (oserror -> option exn)) (followlinks : bool)
        (fuel : nat) (top : string) (w : p_world) :
  WalkObs.handler_never WalkObs.is_oserror onerror ->
  WalkObs.never WalkObs.is_oserror
    (walk edit topdown onerror followlinks fuel top w).1.2.
Proof. intros Hh. now apply WalkGeneral.walk_no_oserror. Qed.

Lemma walk_never_raises_oserror_witness :
  WalkObs.never WalkObs.is_oserror
    (walk (P := posix_platform) no_edit true (Some Examples.note) false 9
          "top" Examples.px_world).1.2
  /\ WalkObs.never WalkObs.is_oserror
       (walk (P := posix_platform) no_edit false None true 9 "flaky"
             Examples.px_world).1.2.
Proof.
  split.
  - apply walk_never_raises_oserror. intros error. exact I.
  - apply walk_never_raises_oserror. exact I.
Defined.

(** X7.  Top-down, when every name the consumer leaves in [dir_names] is
    the name of a scanned sub-directory, the walk yields the triple of [top]
    and then descends into exactly the names left, in the order and with the
    repetitions the consumer left them in, each resolved to a scanned entry
    of that name. *)
Theorem walk_descends_into_edited_names {P : Platform}
        (edit : triple -> list string)
        (onerror : option (oserror -> option exn)) (followlinks : bool)
        (fuel : nat) (top : string) (w w1 : p_world)
        (dirs nondirs : list p_entry) :
  scan_entries fuel top w = (Some (inr (dirs, nondirs)), w1) ->
  let t := (top, map p_name dirs, map p_name nondirs) in
  edit t ⊆ map p_name dirs ->
  exists ds,
    map p_name ds = edit t
    /\ Forall (fun e => e ∈ dirs) ds
    /\ walk edit true onerror followlinks (S fuel) top w
       = let r := walk_dirs followlinks
                    (walk edit true onerror followlinks fuel) top ds w1 in
         (Triple t :: r.1.1, r.1.2, r.2).
Proof.
  intros Hscan t Hsub.
  destruct (WalkGeneral.resolve_present dirs (edit t) Hsub)
    as (ds & Hr & Hm & Hf).
  exists ds. split; [exact Hm|]. split; [exact Hf|].
  cbn [walk]. rewrite Hscan. fold t. rewrite Hr.
  destruct (walk_dirs _ _ top ds w1) as [[evs e] w2]. done.
Qed.

Lemma walk_descends_into_edited_names_witness :
  exists ds w1,
    map Posix.name ds = ["a"]
    /\ walk (P := posix_platform) Examples.prune_b true (Some Examples.note)
             false 9 "root"
            Examples.px_world
       = let r := walk_dirs (P := posix_platform) false
                    (walk (P := posix_platform) Examples.prune_b true
                           (Some Examples.note)
                          false 8) "root" ds w1 in
         (Triple ("root", ["a"; "b"], ["link"; "f.txt"]) :: r.1.1,
          r.1.2, r.2).
Proof.
  let r := eval vm_compute in
      (scan_entries (P := posix_platform) 8 "root" Examples.px_world) in
  match r with
  | (Some (inr (?dirs, ?nondirs)), ?w1) =>
      assert (Hscan : scan_entries (P := posix_platform) 8 "root"
                                   Examples.px_world
                      = (Some (inr (dirs, nondirs)), w1))
        by (vm_compute; reflexivity);
      destruct (walk_descends_into_edited_names (P := posix_platform)
                  Examples.prune_b (Some Examples.note) false 8 "root"
                  Examples.px_world
                  w1 dirs nondirs Hscan) as (ds & Hm & _ & Hw);
      [|exists ds, w1; split; [exact Hm|exact Hw]]
  end.
  vm_compute. intros x Hx.
  apply elem_of_cons in Hx as [->|Hx]; [apply list_elem_of_here|].
  by apply not_elem_of_nil in Hx.
Defined.

(** ** One type per entry on POSIX *)
Module PosixTypes.
Import Posix PosixObs.

Lemma hint_exclusive (t : Z) :
  ((t =? DT_DIR) && (t =? DT_REG) = false)
  /\ ((t =? DT_DIR) && (t =? DT_LNK) = false)
  /\ ((t =? DT_REG) && (t =? DT_LNK) = false).
Proof.
  unfold DT_DIR, DT_REG, DT_LNK.
  destruct (Z.eqb_spec t 4), (Z.eqb_spec t 8), (Z.eqb_spec t 10);
    repeat split; simpl; try reflexivity; lia.
Qed.

Lemma mode_exclusive (st : stat_result) :
  (mode_isdir st && mode_isfile st = false)
  /\ (mode_isdir st && mode_islink st = false)
  /\ (mode_isfile st && mode_islink st = false).
Proof.
  unfold mode_isdir, mode_isfile, mode_islink, S_IFDIR, S_IFREG, S_IFLNK.
  destruct (Z.eqb_spec (Z.land (st_mode st) S_IFMT_mask) 0x4000),
           (Z.eqb_spec (Z.land (st_mode st) S_IFMT_mask) 0x8000),
           (Z.eqb_spec (Z.land (st_mode st) S_IFMT_mask) 0xA000);
    repeat split; simpl; try reflexivity; lia.
Qed.

Lemma classify_cached dt by_mode self st w :
  d_type (dirent_of self) = DT_UNKNOWN -> _lstat self = Some st ->
  classify dt by_mode self w = (by_mode st, self, w).
Proof.
  intros Hu Hc. rewrite (PosixEntry.classify_unknown _ _ _ _ Hu).
  now rewrite (PosixEntry.lstat_cached _ _ _ Hc).
Qed.

Lemma classify_fail dt by_mode self e w :
  d_type (dirent_of self) = DT_UNKNOWN -> _lstat self = None ->
  w_lstat w (path_of self) = inl e ->
  classify dt by_mode self w = (false, self, log (Lstat (path_of self)) w).
Proof.
  intros Hu Hc Hq. rewrite (PosixEntry.classify_unknown _ _ _ _ Hu).
  now rewrite (PosixEntry.lstat_fresh_fail _ _ _ Hc Hq).
Qed.

Lemma classify_ok dt by_mode self st w :
  d_type (dirent_of self) = DT_UNKNOWN -> _lstat self = None ->
  w_lstat w (path_of self) = inr st ->
  classify dt by_mode self w
  = (by_mode st, set_lstat self st, log (Lstat (path_of self)) w).
Proof.
  intros Hu Hc Hq. rewrite (PosixEntry.classify_unknown _ _ _ _ Hu).
  now rewrite (PosixEntry.lstat_fresh_ok _ _ _ Hc Hq).
Qed.

End PosixTypes.

(** X8.  On POSIX an entry is never of two types at once: asked in turn
    whether it is a directory, a regular file and a link, an entry answers
    [True] at most once, whether it answers from its type hint, from a
    cached status or from a status it has to query; and when it has to query
    and the query fails, all three answers are [False]. *)
Theorem posix_entry_has_at_most_one_type
        (self : Posix.DirEntry) (w : Posix.world) :
  let '(d, self1, w1) := Posix.isdir self w in
  let '(f, self2, w2) := Posix.isfile self1 w1 in
  let '(l, self3, w3) := Posix.islink self2 w2 in
  (d && f = false /\ d && l = false /\ f && l = false)
  /\ (Posix.d_type (Posix.dirent_of self) = Posix.DT_UNKNOWN ->
      Posix._lstat self = None ->
      (exists e, Posix.w_lstat w (PosixObs.path_of self) = inl e) ->
      d = false /\ f = false /\ l = false).
Proof.
  unfold Posix.isdir, Posix.isfile, Posix.islink.
  destruct (Z.eq_dec (Posix.d_type (Posix.dirent_of self)) Posix.DT_UNKNOWN)
    as [Hu|Hd].
  - destruct (Posix._lstat self) as [st|] eqn:Hc.
    + rewrite !(PosixTypes.classify_cached _ _ self st w Hu Hc).
      split; [apply PosixTypes.mode_exclusive|]. intros _ Hn. discriminate Hn.
    + destruct (Posix.w_lstat w (PosixObs.path_of self)) as [e|st] eqn:Hq.
      * set (p := PosixObs.path_of self) in *.
        rewrite (PosixTypes.classify_fail _ _ self e w Hu Hc Hq).
        rewrite (PosixTypes.classify_fail _ _ self e
                   (Posix.log (Posix.Lstat p) w) Hu Hc Hq).
        rewrite (PosixTypes.classify_fail _ _ self e
                   (Posix.log (Posix.Lstat p) (Posix.log (Posix.Lstat p) w))
                   Hu Hc Hq).
        done.
      * rewrite (PosixTypes.classify_ok _ _ self st w Hu Hc Hq).
        rewrite !(PosixTypes.classify_cached _ _ (Posix.set_lstat self st)
                    st _ Hu eq_refl).
        split; [apply PosixTypes.mode_exclusive|].
        intros _ _ [e He]. discriminate He.
  - rewrite !(PosixEntry.classify_hint _ _ self w Hd).
    split; [apply PosixTypes.hint_exclusive|]. intros Hu. by destruct Hd.
Qed.

(** An entry whose file has vanished is of no type. *)
Lemma posix_entry_has_at_most_one_type_witness :
  (Posix.isdir Examples.px_gone Examples.px_world).1.1 = false
  /\ (Posix.isfile Examples.px_gone Examples.px_world).1.1 = false
  /\ (Posix.islink Examples.px_gone Examples.px_world).1.1 = false.
Proof.
  pose proof (posix_entry_has_at_most_one_type Examples.px_gone
                Examples.px_world) as H.
  vm_compute in H. destruct H as [_ H]. apply H; try reflexivity.
  by exists 2.
Defined.

(** ** How the walker sorts the entries of a directory on POSIX *)
Module PosixSorting.
Import Posix PosixObs PosixClassify PosixSorted.

Lemma isdir_fresh path name d w :
  (isdir (fresh path name d) w).1.1 = is_dir_in w (fresh path name d)
  /\ Posix.name (isdir (fresh path name d) w).1.2 = name.
Proof.
  unfold isdir, classify, is_dir_in, fresh. simpl.
  destruct (negb (d_type d =? DT_UNKNOWN)); [done|].
  unfold lstat, os_lstat, path_of. simpl.
  destruct (w_lstat w _); done.
Qed.

Lemma is_dir_in_same_os w w' e :
  same_os w w' -> is_dir_in w' e = is_dir_in w e.
Proof. intros (_ & Hl & _). unfold is_dir_in. now rewrite Hl. Qed.

Lemma sort_entry_sorted w path ys name d acc w1 :
  same_os w w1 -> sorted_as w ys acc ->
  sorted_as w (ys ++ [fresh path name d])
            (sort_entry (P := posix_platform) (fresh path name d) acc w1).1.
Proof.
  intros Hos [Hd Hn]. destruct acc as [dirs nondirs]. simpl in Hd, Hn.
  unfold sort_entry, sorted_as.
  destruct (isdir_fresh path name d w1) as [Hb Hname].
  rewrite (is_dir_in_same_os _ _ _ Hos) in Hb.
  change (@p_isdir posix_platform (fresh path name d) w1)
    with (isdir (fresh path name d) w1).
  destruct (isdir (fresh path name d) w1) as [[b e1] w2]. simpl in Hb, Hname.
  rewrite !List.filter_app, !List.map_app. simpl.
  rewrite <- Hb. destruct b; simpl; rewrite ?List.map_app, ?app_nil_r;
    simpl; rewrite ?Hd, ?Hn, ?Hname; done.
Qed.

End PosixSorting.

(** X9.  On POSIX, when the scan of [top] succeeds (the path encodes, the
    directory opens, every name decodes and no read or [closedir] fails),
    the walker's two lists hold, each in scan order, the names of the
    scanned entries that are directories and the names of all the others: an
    entry counts as a directory when its type hint says so or, without a
    hint, when [lstat] of its path reports a directory; symbolic links,
    other file types and entries whose status cannot be read are listed with
    the files.  Top-down, the first thing the walk produces is the triple of
    [top] with these two lists. *)
Theorem posix_walk_sorts_entries_by_type
        (w : Posix.world) (top : string) (encoded : bytes)
        (st : Posix.dirstream) (fuel : nat) :
  cd_encode (Posix.file_system_encoding w) top = Some encoded ->
  Posix.w_opendir w encoded = inr st ->
  PosixObs.scan_raises (Posix.file_system_encoding w) top st = None ->
  (length (Posix.ds_reads st) < fuel)%nat ->
  let ys := PosixObs.yields (Posix.file_system_encoding w) top
                            (Posix.ds_reads st) in
  let D := map Posix.name (List.filter (PosixClassify.is_dir_in w) ys) in
  let F := map Posix.name
             (List.filter (fun e => negb (PosixClassify.is_dir_in w e)) ys) in
  (exists dirs nondirs w',
      scan_entries (P := posix_platform) fuel top w
      = (Some (inr (dirs, nondirs)), w')
      /\ map Posix.name dirs = D /\ map Posix.name nondirs = F
      /\ PosixObs.same_os w w')
  /\ (forall edit onerror followlinks,
        exists evs e w',
          walk (P := posix_platform) edit true onerror followlinks (S fuel)
               top w
          = (Triple (top, D, F) :: evs, e, w')).
Proof.
  intros Henc Ho He Hf ys D F.
  assert (Hscan : exists dirs nondirs w',
      scan_entries (P := posix_platform) fuel top w
      = (Some (inr (dirs, nondirs)), w')
      /\ map Posix.name dirs = D /\ map Posix.name nondirs = F
      /\ PosixObs.same_os w w').
  { unfold scan_entries.
    destruct (PosixScan.for_each_scandir
                (sort_entry (P := posix_platform))
                (PosixSorted.sorted_as w) w top
                PosixWalk.sort_entry_open PosixWalk.sort_entry_same_os
                (fun ys name d s w1 Hos HJ =>
                   PosixSorting.sort_entry_sorted w top ys name d s w1 Hos HJ)
                encoded st ([], []) fuel Henc Ho Hf)
      as ([dirs nondirs] & w' & Heq & [HD HF] & Hos); [by split|].
    exists dirs, nondirs, w'. rewrite He in Heq. simpl in HD, HF.
    split; [exact Heq|]. split; [exact HD|]. split; [exact HF|exact Hos]. }
  split; [exact Hscan|].
  intros edit onerror followlinks.
  destruct Hscan as (dirs & nondirs & w' & Heq & HD & HF & _).
  cbn [walk]. rewrite Heq. rewrite <- HD, <- HF.
  destruct (resolve _ _) as [x|ds]; [by eexists _, _, _|].
  destruct (walk_dirs _ _ top ds w') as [[evs e] w2]. by eexists _, _, _.
Qed.

Lemma posix_walk_sorts_entries_by_type_witness :
  (exists dirs nondirs w',
      scan_entries (P := posix_platform) 8 "root" Examples.px_world
      = (Some (inr (dirs, nondirs)), w')
      /\ map Posix.name dirs = ["a"; "b"]
      /\ map Posix.name nondirs = ["link"; "f.txt"]
      /\ PosixObs.same_os Examples.px_world w')
  /\ (forall edit onerror followlinks,
        exists evs e w',
          walk (P := posix_platform) edit true onerror followlinks 9
               "root" Examples.px_world
          = (Triple ("root", ["a"; "b"], ["link"; "f.txt"]) :: evs, e, w')).
Proof.
  refine (posix_walk_sorts_entries_by_type Examples.px_world "root" "root" _
            8 eq_refl eq_refl eq_refl _).
  vm_compute. lia.
Defined.

(** ** Walking without status queries *)
Module PosixQuiet.
Import Posix PosixObs PosixClassify.

Lemma definite_insert w h s :
  definite_world w -> Forall definite (ds_reads s) ->
  forall w',
    w_opendir w' = w_opendir w -> w_open w' = <[h := s]> (w_open w) ->
    definite_world w'.
Proof.
  intros [Hd Ho] Hs w' Hop Hopen. split.
  - intros p st. rewrite Hop. apply Hd.
  - intros h' st. rewrite Hopen.
    destruct (decide (h = h')) as [->|Hne].
    + rewrite lookup_insert_eq. by intros [= <-].
    + rewrite lookup_insert_ne by done. apply Ho.
Qed.

Lemma definite_delete w h :
  definite_world w ->
  forall w',
    w_opendir w' = w_opendir w -> w_open w' = delete h (w_open w) ->
    definite_world w'.
Proof.
  intros [Hd Ho] w' Hop Hopen. split.
  - intros p st. rewrite Hop. apply Hd.
  - intros h' st. rewrite Hopen. intros Hl.
    apply lookup_delete_Some in Hl as [_ Hl]. by eapply Ho.
Qed.

Lemma definite_same w :
  definite_world w ->
  forall w',
    w_opendir w' = w_opendir w -> w_open w' = w_open w -> definite_world w'.
Proof.
  intros [Hd Ho] w' Hop Hopen. split.
  - intros p st. rewrite Hop. apply Hd.
  - intros h' st. rewrite Hopen. apply Ho.
Qed.

Lemma finally_close_quiet {A} path h (leaving : step A) w :
  definite_world w ->
  definite_world (finally_close path h leaving w).2
  /\ lstats (finally_close path h leaving w).2 = lstats w
  /\ (forall e, (finally_close path h leaving w).1.1 = Yielded e ->
                leaving = Yielded e).
Proof.
  intros Hw. unfold finally_close, closedir. simpl.
  destruct (w_open w !! h) as [s|] eqn:Hs; [destruct (ds_close s)|]; simpl;
    (split; [|split; [done|]]); try done;
    try (eapply (definite_delete w h Hw); done);
    try (eapply (definite_same w Hw); done).
Qed.

Lemma scandir_loop_quiet path h : forall fuel w,
  definite_world w ->
  definite_world (scandir_loop fuel path h w).2
  /\ lstats (scandir_loop fuel path h w).2 = lstats w
  /\ (forall e, (scandir_loop fuel path h w).1.1 = Yielded e ->
                d_type (dirent_of e) <> DT_UNKNOWN).
Proof.
  induction fuel as [|fuel IH]; intros w Hw.
  { simpl. split; [exact Hw|]. split; [done|]. intros e He. discriminate He. }
  rewrite PosixScan.scandir_loop_S. unfold readdir_r. simpl.
  destruct (w_open w !! h) as [s|] eqn:Hs.
  - destruct s as [[|[d|err] rest] cl]; simpl.
    + destruct (finally_close_quiet (A := DirEntry) path h StopIteration
                  (log (Readdir h) w)) as (H1 & H2 & H3);
        [eapply (definite_same w Hw); done|].
      split; [exact H1|]. split; [exact H2|].
      intros e He. by apply H3 in He.
    + pose proof (proj2 Hw h _ Hs) as Hall. simpl in Hall.
      inversion Hall as [|? ? Hd Hrest]; subst.
      set (w1 := set_open _ _).
      assert (Hw1 : definite_world w1)
        by (eapply (definite_insert w h (DirStream rest cl) Hw Hrest); done).
      destruct (cd_decode _ (d_name d)) as [name|].
      * destruct (decide (Spec.pseudo_entry name)).
        -- destruct (IH w1 Hw1) as (H1 & H2 & H3).
           split; [exact H1|]. split; [exact H2|exact H3].
        -- simpl. split; [exact Hw1|]. split; [done|].
           intros e [= <-]. exact Hd.
      * destruct (finally_close_quiet (A := DirEntry) path h
                    (Raised (UnicodeDecodeError (d_name d))) w1 Hw1)
          as (H1 & H2 & H3).
        split; [exact H1|]. split; [exact H2|].
        intros e He. by apply H3 in He.
    + pose proof (proj2 Hw h _ Hs) as Hall. simpl in Hall.
      inversion Hall as [|? ? Hd Hrest]; subst.
      set (w1 := set_errno _ _).
      destruct (finally_close_quiet (A := DirEntry) path h
                  (Raised (posix_error path w1)) w1) as (H1 & H2 & H3).
      { eapply (definite_insert w h (DirStream rest cl) Hw Hrest); done. }
      split; [exact H1|]. split; [exact H2|].
      intros e He. by apply H3 in He.
  - set (w1 := set_errno _ _).
    destruct (finally_close_quiet (A := DirEntry) path h
                (Raised (posix_error path w1)) w1) as (H1 & H2 & H3);
      [eapply (definite_same w Hw); done|].
    split; [exact H1|]. split; [exact H2|].
    intros e He. by apply H3 in He.
Qed.

Lemma scandir_next_quiet g w :
  definite_world w ->
  definite_world (scandir_next g w).2
  /\ lstats (scandir_next g w).2 = lstats w
  /\ (forall e, (scandir_next g w).1.1 = Yielded e ->
                d_type (dirent_of e) <> DT_UNKNOWN).
Proof.
  intros Hw. destruct g as [path|path h|]; cbn [scandir_next].
  - destruct (cd_encode _ path) as [encoded|];
      [|split; [exact Hw|]; split; [done|]; intros e0 He; discriminate He].
    unfold opendir. destruct (w_opendir w encoded) as [e|s] eqn:Ho.
    + split; [eapply (definite_same w Hw); done|]. split; [done|].
      intros e0 He. discriminate He.
    + set (w1 := log _ _).
      assert (Hw1 : definite_world w1).
      { eapply (definite_insert w (w_fresh w) s Hw); [|done|done].
        exact (proj1 Hw encoded s Ho). }
      destruct (scandir_loop_quiet path (w_fresh w)
                  (S (pending (w_fresh w) w1)) w1 Hw1) as (H1 & H2 & H3).
      split; [exact H1|]. split; [rewrite H2; done|exact H3].
  - by apply scandir_loop_quiet.
  - split; [exact Hw|]. split; [done|]. intros e He. discriminate He.
Qed.

Lemma sort_entry_quiet e acc w :
  d_type (dirent_of e) <> DT_UNKNOWN ->
  (sort_entry (P := posix_platform) e acc w).2 = w.
Proof.
  intros Hd. unfold sort_entry. destruct acc as [dirs nondirs].
  change (@p_isdir posix_platform e w) with (isdir e w). unfold isdir.
  rewrite (PosixEntry.classify_hint _ _ e w Hd).
  destruct (d_type (dirent_of e) =? DT_DIR); done.
Qed.

Lemma scan_entries_quiet : forall fuel g acc w,
  definite_world w ->
  definite_world
    (for_each (P := posix_platform) sort_entry fuel g acc w).2
  /\ lstats (for_each (P := posix_platform) sort_entry fuel g acc w).2
     = lstats w.
Proof.
  induction fuel as [|fuel IH]; intros g acc w Hw; [by split|].
  cbn [for_each].
  change (@p_next posix_platform g w) with (scandir_next g w).
  destruct (scandir_next_quiet g w Hw) as (H1 & H2 & H3).
  destruct (scandir_next g w) as [[[e| |x] g1] w1]; simpl in H1, H2, H3;
    [|by split|by split].
  pose proof (sort_entry_quiet e acc w1 (H3 e eq_refl)) as Hq.
  destruct (sort_entry (P := posix_platform) e acc w1) as [s1 w2].
  simpl in Hq. subst w2.
  destruct (IH g1 s1 w1 H1) as [H4 H5]. split; [exact H4|].
  rewrite H5. exact H2.
Qed.

Lemma walk_dirs_quiet followlinks walk_rec top :
  (forall p w, definite_world w ->
     definite_world (walk_rec p w).2 /\ lstats (walk_rec p w).2 = lstats w) ->
  forall dirs w,
    Forall dir_like dirs -> definite_world w ->
    definite_world
      (walk_dirs (P := posix_platform) followlinks walk_rec top dirs w).2
    /\ lstats
         (walk_dirs (P := posix_platform) followlinks walk_rec top dirs w).2
       = lstats w.
Proof.
  intros Hrec. induction dirs as [|d dirs IH]; intros w Hd Hw; [by split|].
  inversion Hd as [|? ? Hd1 Hd2]; subst.
  rewrite (PosixWalk.walk_dirs_cons followlinks walk_rec top d dirs w Hd1).
  destruct (Hrec (join top (name d)) w Hw) as [H1 H2].
  destruct (walk_rec (join top (name d)) w) as [[evs e] w2].
  simpl in H1, H2.
  destruct e; [|by split|by split].
  destruct (IH w2 Hd2 H1) as [H3 H4].
  destruct (walk_dirs (P := posix_platform) followlinks walk_rec top dirs w2)
    as [[evs' e'] w3].
  simpl in *. split; [exact H3|]. rewrite H4. exact H2.
Qed.

Lemma walk_quiet edit topdown onerror followlinks : forall fuel top w,
  definite_world w ->
  definite_world
    (walk (P := posix_platform) edit topdown onerror followlinks fuel top w).2
  /\ lstats
       (walk (P := posix_platform) edit topdown onerror followlinks fuel
             top w).2
     = lstats w.
Proof.
  induction fuel as [|fuel IH]; intros top w Hw; [by split|].
  cbn [walk].
  destruct (scan_entries_quiet fuel (scandir top) ([], []) w Hw) as [H1 H2].
  change (for_each (P := posix_platform) sort_entry fuel (scandir top)
                   ([], []) w)
    with (scan_entries (P := posix_platform) fuel top w) in H1, H2.
  destruct (scan_entries (P := posix_platform) fuel top w)
    as [[[x|[dirs nondirs]]|] w1] eqn:Hs; simpl in H1, H2;
    [destruct x; try (by split); by destruct onerror| |by split].
  pose proof (PosixWalk.scan_entries_dir_like _ _ _ _ _ _ Hs) as Hd.
  destruct topdown.
  - destruct (resolve _ _) as [x|ds] eqn:Hr; [by split|].
    pose proof (PosixWalk.resolve_dir_like _ _ _ Hd Hr) as Hds.
    destruct (walk_dirs_quiet followlinks _ top IH ds w1 Hds H1)
      as [H3 H4].
    destruct (walk_dirs (P := posix_platform) _ _ top ds w1) as [[evs e] w2].
    simpl in *. split; [exact H3|]. etrans; [exact H4|exact H2].
  - destruct (walk_dirs_quiet followlinks _ top IH dirs w1 Hd H1)
      as [H3 H4].
    destruct (walk_dirs (P := posix_platform) _ _ top dirs w1) as [[evs e] w2].
    simpl in *.
    destruct e; (split; [exact H3|]); (etrans; [exact H4|exact H2]).
Qed.

Lemma example_world_definite : definite_world Examples.px_world.
Proof.
  split; [|intros h st; simpl; rewrite lookup_empty; discriminate].
  intros p st. simpl. unfold Examples.px_opendir.
  repeat (destruct (String.eqb p _);
          [intros [= <-]; repeat constructor; simpl; discriminate|]).
  discriminate.
Qed.

End PosixQuiet.

(** X10.  On POSIX, when the operating system reports a definite type for
    every directory entry, a walk makes no status query at all, whatever the
    tree, the consumer and the options: entries are sorted and links are
    told apart from the type hint alone.  (This is what the module is for:
    [os.walk] would call [stat] on every entry.) *)
Theorem posix_walk_makes_no_status_query
        (w : Posix.world) (edit : triple -> list string) (topdown : bool)
        (onerror : option (oserror -> option exn)) (followlinks : bool)
        (fuel : nat) (top : string) :
  PosixClassify.definite_world w ->
  PosixObs.lstat_count
    (Posix.w_trace
       (walk (P := posix_platform) edit topdown onerror followlinks fuel
             top w).2)
  = PosixObs.lstat_count (Posix.w_trace w).
Proof.
  intros Hw.
  exact (proj2 (PosixQuiet.walk_quiet edit topdown onerror followlinks
                  fuel top w Hw)).
Qed.

Lemma posix_walk_makes_no_status_query_witness :
  PosixObs.lstat_count
    (Posix.w_trace
       (walk (P := posix_platform) no_edit true (Some Examples.note)
              false 9 "root"
             Examples.px_world).2)
  = 0%nat.
Proof.
  exact (posix_walk_makes_no_status_query Examples.px_world no_edit true
           (Some Examples.note) false 9 "root"
           PosixQuiet.example_world_definite).
Defined.

(** ** Consumers that only prune *)
Module PosixPruning.
Import Posix PosixObs.

Lemma finally_close_raises {A} path h (leaving : step A) w e :
  (finally_close path h leaving w).1.1 = Raised e ->
  (exists oe, e = OSError oe) \/ leaving = Raised e.
Proof.
  unfold finally_close. destruct (closedir h w) as [[|] w1]; simpl.
  - intros [= <-]. left. by eexists.
  - intros ->. by right.
Qed.

(** A scan raises [OSError], [UnicodeEncodeError] or [UnicodeDecodeError],
    never [NameError]. *)
Lemma scandir_loop_raises path h : forall fuel w e,
  (scandir_loop fuel path h w).1.1 = Raised e -> ~ WalkObs.is_name_error e.
Proof.
  induction fuel as [|fuel IH]; intros w e; [discriminate|].
  rewrite PosixScan.scandir_loop_S.
  destruct (readdir_r h w) as [[| |d] w1].
  - intros H. apply finally_close_raises in H as [[oe ->]|[= <-]];
      intros [].
  - intros H. apply finally_close_raises in H as [[oe ->]|H];
      [intros []|discriminate].
  - destruct (cd_decode _ (d_name d)) as [name|].
    + destruct (decide (Spec.pseudo_entry name)); [apply IH|discriminate].
    + intros H. apply finally_close_raises in H as [[oe ->]|[= <-]];
        intros [].
Qed.

Lemma scandir_next_raises g w e :
  (scandir_next g w).1.1 = Raised e -> ~ WalkObs.is_name_error e.
Proof.
  destruct g as [path|path h|]; cbn [scandir_next].
  - destruct (cd_encode _ path) as [encoded|]; [|by intros [= <-] []].
    destruct (opendir encoded w) as [[h|] w1].
    + apply scandir_loop_raises.
    + intros [= <-] [].
  - apply scandir_loop_raises.
  - discriminate.
Qed.

Lemma for_each_raises {S} (body : DirEntry -> S -> world -> S * world) :
  forall fuel g s w e w',
    for_each (P := posix_platform) body fuel g s w = (Some (inl e), w') ->
    ~ WalkObs.is_name_error e.
Proof.
  induction fuel as [|fuel IH]; intros g s w e w'; [discriminate|].
  cbn [for_each]. change (@p_next posix_platform g w) with (scandir_next g w).
  pose proof (scandir_next_raises g w) as Hr.
  destruct (scandir_next g w) as [[[entry| |x] g1] w1]; simpl in Hr.
  - destruct (body entry s w1) as [s1 w2]. apply IH.
  - discriminate.
  - intros [= <- <-]. by apply Hr.
Qed.

End PosixPruning.

(** X11.  On POSIX a consumer that only removes, reorders or repeats names
    of [dir_names] never brings the walk to the unbound name
    [TODO_DirEntry]: whatever the tree, the codec and the options, no
    [NameError] leaves the walk, unless the error handler raises one. *)
Theorem posix_walk_with_pruning_consumer_raises_no_name_error
        (edit : triple -> list string) (topdown : bool)
        (onerror : option (oserror -> option exn)) (followlinks : bool)
        (fuel : nat) (top : string) (w : Posix.world) :
  (forall t, edit t ⊆ t.1.2) ->
  WalkObs.handler_never WalkObs.is_name_error onerror ->
  WalkObs.never WalkObs.is_name_error
    (walk (P := posix_platform) edit topdown onerror followlinks
          fuel top w).1.2.
Proof.
  intros Hedit Hh. revert top w.
  induction fuel as [|fuel IH]; intros top w; [exact I|].
  cbn [walk]. unfold scan_entries.
  pose proof (PosixPruning.for_each_raises
                (sort_entry (P := posix_platform)) fuel
                (Posix.scandir top) ([], []) w) as Hr.
  change (@p_scandir posix_platform top) with (Posix.scandir top).
  destruct (for_each (P := posix_platform) sort_entry fuel
                     (Posix.scandir top) ([], []) w)
    as [[[x|[dirs nondirs]]|] w1].
  - specialize (Hr x w1 eq_refl).
    destruct x as [oe|n|o|o|c]; simpl; try exact Hr.
    destruct onerror as [handler|]; simpl; [|exact I].
    specialize (Hh oe). simpl in Hh.
    destruct (handler oe); [exact Hh|exact I].
  - destruct topdown.
    + destruct (WalkGeneral.resolve_present (P := posix_platform) dirs
                  (edit (top, map (@p_name posix_platform) dirs,
                         map (@p_name posix_platform) nondirs))
                  (Hedit _)) as (ds & Hres & _).
      rewrite Hres.
      pose proof (WalkGeneral.walk_dirs_ending (P := posix_platform)
                    (WalkObs.never WalkObs.is_name_error) followlinks
                    _ top I IH ds w1) as Ht.
      destruct (walk_dirs (P := posix_platform) _ _ top ds w1)
        as [[evs e] w2]. exact Ht.
    + pose proof (WalkGeneral.walk_dirs_ending (P := posix_platform)
                    (WalkObs.never WalkObs.is_name_error) followlinks
                    _ top I IH dirs w1) as Ht.
      destruct (walk_dirs (P := posix_platform) _ _ top dirs w1)
        as [[evs e] w2]. simpl in Ht.
      destruct e; simpl; [exact I|exact Ht|exact I].
  - exact I.
Qed.

Lemma posix_walk_with_pruning_consumer_raises_no_name_error_witness :
  WalkObs.never WalkObs.is_name_error
    (walk (P := posix_platform) Examples.prune_b true (Some Examples.note)
          false 9 "root" Examples.px_world).1.2.
Proof.
  refine (posix_walk_with_pruning_consumer_raises_no_name_error
            Examples.prune_b true (Some Examples.note) false 9 "root"
            Examples.px_world _ _).
  - intros t x Hx. unfold Examples.prune_b in Hx.
    apply list_elem_of_In in Hx. apply List.filter_In in Hx as [Hx _].
    now apply list_elem_of_In.
  - intros error. exact I.
Defined.

(** ** Directory handles during a walk *)
Module PosixLeaks.
Import Posix PosixObs PosixHandles.

Lemma finally_close_table {A} path h (leaving : step A) w :
  w_open (finally_close path h leaving w).2 = delete h (w_open w)
  /\ w_fresh (finally_close path h leaving w).2 = w_fresh w
  /\ (forall e, (finally_close path h leaving w).1.1 = Yielded e ->
                leaving = Yielded e).
Proof.
  unfold finally_close, closedir. simpl.
  destruct (w_open w !! h) as [s|] eqn:Hs; [destruct (ds_close s)|]; simpl;
    repeat split; try done.
  all: symmetry; by apply delete_id.
Qed.

Lemma scandir_loop_table path h : forall lf w,
  is_Some (w_open w !! h) -> (pending h w < lf)%nat ->
  w_fresh (scandir_loop lf path h w).2 = w_fresh w
  /\ match (scandir_loop lf path h w).1.1 with
     | Yielded _ =>
         (scandir_loop lf path h w).1.2 = ScanLoop path h
         /\ is_Some (w_open (scandir_loop lf path h w).2 !! h)
         /\ delete h (w_open (scandir_loop lf path h w).2)
            = delete h (w_open w)
     | _ => w_open (scandir_loop lf path h w).2 = delete h (w_open w)
     end.
Proof.
  induction lf as [|lf IH]; intros w [s Hs] Hlf; [lia|].
  rewrite (PosixScan.pending_lookup _ _ _ Hs) in Hlf.
  rewrite PosixScan.scandir_loop_S. unfold readdir_r. simpl. rewrite Hs.
  destruct s as [[|[d|err] rest] cl]; simpl in *.
  - destruct (finally_close_table (A := DirEntry) path h StopIteration
                (log (Readdir h) w)) as (H1 & H2 & H3).
    split; [exact H2|].
    destruct ((finally_close path h StopIteration (log (Readdir h) w)).1.1)
      as [e| |x] eqn:Hr; [by specialize (H3 e eq_refl)|exact H1|exact H1].
  - set (w1 := set_open _ _).
    destruct (cd_decode _ (d_name d)) as [name|].
    + destruct (decide (Spec.pseudo_entry name)).
      * destruct (IH w1) as [H1 H2].
        { subst w1. simpl. rewrite lookup_insert_eq. by eexists. }
        { subst w1. unfold pending. simpl. rewrite lookup_insert_eq.
          simpl. lia. }
        split; [exact H1|].
        destruct ((scandir_loop lf path h w1).1.1) as [e| |x].
        -- destruct H2 as (Ha & Hb & Hc). split; [exact Ha|].
           split; [exact Hb|]. rewrite Hc. subst w1. simpl.
           apply delete_insert_eq.
        -- rewrite H2. subst w1. simpl. apply delete_insert_eq.
        -- rewrite H2. subst w1. simpl. apply delete_insert_eq.
      * simpl. split; [done|]. split; [done|]. split.
        -- rewrite lookup_insert_eq. by eexists.
        -- apply delete_insert_eq.
    + destruct (finally_close_table (A := DirEntry) path h
                  (Raised (UnicodeDecodeError (d_name d))) w1)
        as (H1 & H2 & H3).
      split; [exact H2|].
      destruct ((finally_close path h
                   (Raised (UnicodeDecodeError (d_name d))) w1).1.1)
        as [e| |x] eqn:Hr; [by specialize (H3 e eq_refl)| |];
        rewrite H1; subst w1; simpl; apply delete_insert_eq.
  - set (w1 := set_errno _ _).
    destruct (finally_close_table (A := DirEntry) path h
                (Raised (posix_error path w1)) w1) as (H1 & H2 & H3).
    split; [exact H2|].
    destruct ((finally_close path h (Raised (posix_error path w1)) w1).1.1)
      as [e| |x] eqn:Hr; [by specialize (H3 e eq_refl)| |];
      rewrite H1; subst w1; simpl; apply delete_insert_eq.
Qed.

Section Body.
Context {S : Type}.
Variable body : DirEntry -> S -> world -> S * world.
Hypothesis body_open : forall e s w, w_open (body e s w).2 = w_open w.
Hypothesis body_fresh : forall e s w, w_fresh (body e s w).2 = w_fresh w.

(** A loop that ends has closed the handle of its scan. *)
Lemma for_each_closes path h : forall fuel s w r w',
  is_Some (w_open w !! h) ->
  for_each (P := posix_platform) body fuel (ScanLoop path h) s w
  = (Some r, w') ->
  w_open w' = delete h (w_open w) /\ w_fresh w' = w_fresh w.
Proof.
  induction fuel as [|fuel IH]; intros s w r w' Hs Heq; [discriminate|].
  cbn [for_each] in Heq.
  change (@p_next posix_platform (ScanLoop path h) w)
    with (scandir_loop (Datatypes.S (pending h w)) path h w) in Heq.
  destruct (scandir_loop_table path h (Datatypes.S (pending h w)) w Hs)
    as [H1 H2]; [lia|].
  destruct (scandir_loop (Datatypes.S (pending h w)) path h w)
    as [[[e| |x] g1] w1]; simpl in H1, H2.
  - destruct H2 as (-> & Hb & Hc).
    pose proof (body_open e s w1) as Hbo.
    pose proof (body_fresh e s w1) as Hbf.
    destruct (body e s w1) as [s1 w2]. simpl in Hbo, Hbf.
    destruct (IH s1 w2 r w') as [H3 H4]; [by rewrite Hbo|exact Heq|].
    split; [|congruence]. rewrite H3, Hbo. exact Hc.
  - inversion Heq; subst. by split.
  - inversion Heq; subst. by split.
Qed.

(** A whole loop over [scandir(path)] that ends leaves the table of open
    handles as it found it. *)
Lemma for_each_settles path fuel s w r w' :
  handles_wf w ->
  for_each (P := posix_platform) body fuel (scandir path) s w = (Some r, w') ->
  settled w w'.
Proof.
  intros Hwf Heq. destruct fuel as [|fuel]; [discriminate|].
  cbn [for_each] in Heq.
  change (@p_next posix_platform (scandir path) w)
    with (scandir_next (ScanStart path) w) in Heq.
  cbn [scandir_next] in Heq.
  destruct (cd_encode _ path) as [encoded|];
    [|inversion Heq; subst; split; [done|exact Hwf]].
  unfold opendir in Heq.
  destruct (w_opendir w encoded) as [e|st] eqn:Ho.
  - inversion Heq; subst. split; [done|]. exact Hwf.
  - set (h := w_fresh w) in *. set (w1 := log _ _) in Heq.
    assert (Hopen1 : w_open w1 = <[h := st]> (w_open w)) by done.
    assert (Hs1 : is_Some (w_open w1 !! h))
      by (rewrite Hopen1, lookup_insert_eq; by eexists).
    assert (Hnone : w_open w !! h = None) by (apply Hwf; subst h; lia).
    assert (Hback : delete h (w_open w1) = w_open w).
    { rewrite Hopen1, delete_insert_eq. by apply delete_id. }
    assert (Hgoal : forall w2, w_open w2 = delete h (w_open w1) ->
                               w_fresh w2 = w_fresh w1 -> settled w w2).
    { intros w2 Ht Hf. split; [by rewrite Ht|].
      intros h' Hh'. rewrite Ht, Hback. apply Hwf.
      rewrite Hf in Hh'. subst w1 h. simpl in Hh'. lia. }
    destruct (scandir_loop_table path h (Datatypes.S (pending h w1)) w1 Hs1)
      as [H1 H2]; [lia|].
    destruct (scandir_loop (Datatypes.S (pending h w1)) path h w1)
      as [[[e| |x] g1] w2]; simpl in H1, H2.
    + destruct H2 as (-> & Hb & Hc).
      pose proof (body_open e s w2) as Hbo.
      pose proof (body_fresh e s w2) as Hbf.
      destruct (body e s w2) as [s1 w3]. simpl in Hbo, Hbf.
      destruct (for_each_closes path h fuel s1 w3 r w') as [H3 H4];
        [by rewrite Hbo|exact Heq|].
      apply Hgoal; [|rewrite H4, Hbf; exact H1]. rewrite H3, Hbo. exact Hc.
    + inversion Heq; subst. apply Hgoal; [exact H2|exact H1].
    + inversion Heq; subst. apply Hgoal; [exact H2|exact H1].
Qed.
End Body.

Lemma classify_fresh dt by_mode self w :
  w_fresh (classify dt by_mode self w).2 = w_fresh w.
Proof.
  unfold classify. destruct (negb _); [done|].
  unfold lstat, os_lstat. destruct (_lstat self); [done|]. simpl.
  destruct (w_lstat w _); done.
Qed.

Lemma sort_entry_fresh e acc w :
  w_fresh (sort_entry (P := posix_platform) e acc w).2 = w_fresh w.
Proof.
  unfold sort_entry. destruct acc as [dirs nondirs].
  change (@p_isdir posix_platform e w) with (isdir e w).
  pose proof (classify_fresh DT_DIR mode_isdir e w) as H. fold isdir in H.
  destruct (isdir e w) as [[[|] e1] w1]; exact H.
Qed.

Lemma settled_after_query dt by_mode self w :
  handles_wf w -> settled w (classify dt by_mode self w).2.
Proof.
  intros Hwf. split; [apply PosixWalk.classify_open|].
  intros h Hh. rewrite PosixWalk.classify_open. apply Hwf.
  now rewrite classify_fresh in Hh.
Qed.

Lemma settled_trans w1 w2 w3 : settled w1 w2 -> settled w2 w3 -> settled w1 w3.
Proof. intros [H1 _] [H2 H3]. split; [congruence|exact H3]. Qed.

Lemma walk_dirs_settles followlinks walk_rec top :
  (forall p w, handles_wf w -> (walk_rec p w).1.2 <> OutOfFuel ->
               settled w (walk_rec p w).2) ->
  forall dirs w,
    handles_wf w ->
    (walk_dirs (P := posix_platform) followlinks walk_rec top dirs w).1.2
    <> OutOfFuel ->
    settled w
      (walk_dirs (P := posix_platform) followlinks walk_rec top dirs w).2.
Proof.
  intros Hrec. induction dirs as [|d dirs IH]; intros w Hwf; [by split|].
  assert (Hdescend : forall w1,
    settled w w1 ->
    (match walk_rec (join top (name d)) w1 with
     | (evs, Finished, w2) =>
         let '(evs', e, w3) :=
           walk_dirs (P := posix_platform) followlinks walk_rec top dirs w2 in
         ((evs ++ evs')%list, e, w3)
     | (evs, e, w2) => (evs, e, w2)
     end).1.2 <> OutOfFuel ->
    settled w
      (match walk_rec (join top (name d)) w1 with
       | (evs, Finished, w2) =>
           let '(evs', e, w3) :=
             walk_dirs (P := posix_platform) followlinks walk_rec top dirs
                       w2 in
           ((evs ++ evs')%list, e, w3)
       | (evs, e, w2) => (evs, e, w2)
       end).2).
  { intros w1 Hw1.
    pose proof (Hrec (join top (name d)) w1 (proj2 Hw1)) as Hsub.
    destruct (walk_rec (join top (name d)) w1) as [[evs e] w2].
    simpl in Hsub. destruct e.
    - specialize (Hsub ltac:(discriminate)).
      pose proof (IH w2 (proj2 Hsub)) as Hrest.
      destruct (walk_dirs (P := posix_platform) followlinks walk_rec top
                          dirs w2) as [[evs' e'] w3].
      simpl in *. intros He.
      eapply settled_trans; [exact Hw1|].
      eapply settled_trans; [exact Hsub|]. by apply Hrest.
    - simpl. intros _. eapply settled_trans; [exact Hw1|].
      apply Hsub. discriminate.
    - simpl. intros He. by destruct He. }
  cbn [walk_dirs]. destruct followlinks.
  - apply Hdescend. by split.
  - change (@p_islink posix_platform d w) with (islink d w).
    pose proof (settled_after_query DT_LNK mode_islink d w Hwf) as Hlink.
    fold islink in Hlink.
    destruct (islink d w) as [[b e1] w1]. simpl in Hlink.
    destruct b; simpl negb; cbv iota.
    + intros He. eapply settled_trans; [exact Hlink|].
      apply IH; [exact (proj2 Hlink)|exact He].
    + apply Hdescend. exact Hlink.
Qed.

Lemma walk_settles edit topdown onerror followlinks : forall fuel top w,
  handles_wf w ->
  (walk (P := posix_platform) edit topdown onerror followlinks fuel top w).1.2
  <> OutOfFuel ->
  settled w
    (walk (P := posix_platform) edit topdown onerror followlinks fuel top w).2.
Proof.
  induction fuel as [|fuel IH]; intros top w Hwf; [by intros []|].
  cbn [walk]. unfold scan_entries.
  change (@p_scandir posix_platform top) with (scandir top).
  pose proof (for_each_settles (sort_entry (P := posix_platform))
                PosixWalk.sort_entry_open sort_entry_fresh top fuel
                ([], []) w) as Hscan.
  destruct (for_each (P := posix_platform) sort_entry fuel (scandir top)
                     ([], []) w) as [[r|] w1]; [|by intros []].
  specialize (Hscan r w1 Hwf eq_refl).
  destruct r as [x|[dirs nondirs]];
    [destruct x; try (by intros _); by destruct onerror|].
  destruct topdown.
  - destruct (resolve _ _) as [x|ds]; [by intros _|].
    pose proof (walk_dirs_settles followlinks _ top IH ds w1 (proj2 Hscan))
      as Hrest.
    destruct (walk_dirs (P := posix_platform) _ _ top ds w1)
      as [[evs e] w2].
    simpl in *. intros He. eapply settled_trans; [exact Hscan|].
    by apply Hrest.
  - pose proof (walk_dirs_settles followlinks _ top IH dirs w1 (proj2 Hscan))
      as Hrest.
    destruct (walk_dirs (P := posix_platform) _ _ top dirs w1)
      as [[evs e] w2].
    simpl in *. destruct e; simpl; intros He;
      (eapply settled_trans; [exact Hscan|]); by apply Hrest.
Qed.

End PosixLeaks.

(** X12.  A POSIX walk leaks no directory handle: whenever a walk ends
    (by exhausting the tree or with an exception; only the model's running
    out of fuel in the middle of a scan is excluded), the table of open
    handles is exactly what it was before the walk, so every handle opened
    on the way has been closed, also for the directories whose scan failed
    at a read, at a name that does not decode or at [closedir], and also
    when the error handler raises. *)
Theorem posix_walk_leaks_no_handle
        (w : Posix.world) (edit : triple -> list string) (topdown : bool)
        (onerror : option (oserror -> option exn)) (followlinks : bool)
        (fuel : nat) (top : string) :
  PosixHandles.handles_wf w ->
  (walk (P := posix_platform) edit topdown onerror followlinks fuel top w).1.2
  <> OutOfFuel ->
  Posix.w_open
    (walk (P := posix_platform) edit topdown onerror followlinks fuel top w).2
  = Posix.w_open w.
Proof.
  intros Hwf He.
  exact (proj1 (PosixLeaks.walk_settles edit topdown onerror followlinks
                  fuel top w Hwf He)).
Qed.

Lemma posix_walk_leaks_no_handle_witness :
  Posix.w_open
    (walk (P := posix_platform) no_edit true (Some Examples.note) false 9 "top"
          Examples.px_world).2
  = ∅
  /\ Posix.w_open
       (walk (P := posix_platform) Examples.add_zzz true
             (Some Examples.note) false 9 "flaky" Examples.px_world).2
     = ∅
  /\ Posix.w_open
       (walk (P := posix_platform) no_edit true None false 9 "odd"
             Examples.px_world).2
     = ∅.
Proof.
  split; [|split].
  - refine (posix_walk_leaks_no_handle Examples.px_world no_edit true
              (Some Examples.note) false 9 "top" _ _).
    + intros h _. apply lookup_empty.
    + vm_compute. discriminate.
  - refine (posix_walk_leaks_no_handle Examples.px_world Examples.add_zzz
              true (Some Examples.note) false 9 "flaky" _ _).
    + intros h _. apply lookup_empty.
    + vm_compute. discriminate.
  - refine (posix_walk_leaks_no_handle Examples.px_world no_edit true None
              false 9 "odd" _ _).
    + intros h _. apply lookup_empty.
    + vm_compute. discriminate.
Defined.

(** ** Top-down and bottom-up *)
Module PosixOrders.
Import Posix PosixObs WalkOrders.

Lemma walk_dirs_same_visit followlinks rec1 rec2 top :
  (forall p w, same_visit (rec1 p w) (rec2 p w)) ->
  forall ds dirs w,
    map name ds = map name dirs ->
    Forall dir_like ds -> Forall dir_like dirs ->
    same_visit
      (walk_dirs (P := posix_platform) followlinks rec1 top ds w)
      (walk_dirs (P := posix_platform) followlinks rec2 top dirs w).
Proof.
  intros Hrec. induction ds as [|d ds IH]; intros [|d' dirs] w Hn Hd Hd';
    try discriminate.
  - by repeat split.
  - inversion Hn as [[Hname Hrest]].
    inversion Hd as [|? ? Hd1 Hd2]; inversion Hd' as [|? ? Hd1' Hd2']; subst.
    rewrite (PosixWalk.walk_dirs_cons followlinks rec1 top d ds w Hd1).
    rewrite (PosixWalk.walk_dirs_cons followlinks rec2 top d' dirs w Hd1').
    rewrite Hname.
    destruct (Hrec (join top (name d')) w) as (Hw & He & Hp).
    destruct (rec1 (join top (name d')) w) as [[evs1 e1] w1].
    destruct (rec2 (join top (name d')) w) as [[evs2 e2] w2].
    simpl in Hw, He, Hp. subst w2 e2.
    destruct e1; [|by repeat split|by repeat split].
    destruct (IH dirs w1 Hrest Hd2 Hd2') as (Hw' & He' & Hp').
    destruct (walk_dirs (P := posix_platform) followlinks rec1 top ds w1)
      as [[evs1' e1'] w1'].
    destruct (walk_dirs (P := posix_platform) followlinks rec2 top dirs w1)
      as [[evs2' e2'] w2'].
    simpl in *. subst w2' e2'. split; [done|]. split; [done|].
    intros Hf. apply Permutation_app; [by apply Hp|by apply Hp'].
Qed.

Lemma resolve_unedited (dirs : list DirEntry) :
  Forall dir_like dirs ->
  exists ds,
    resolve (P := posix_platform) (entries_by_name (P := posix_platform) dirs)
            (map name dirs) = inr ds
    /\ map name ds = map name dirs /\ Forall dir_like ds.
Proof.
  intros Hd.
  destruct (WalkGeneral.resolve_present (P := posix_platform) dirs
              (map (@p_name posix_platform) dirs)) as (ds & Hr & Hm & Hf);
    [done|].
  exists ds. split; [exact Hr|]. split; [exact Hm|].
  eapply Forall_impl; [exact Hf|]. intros e He. simpl in He.
  rewrite Forall_forall in Hd. by apply Hd.
Qed.

Lemma walk_same_visit onerror followlinks : forall fuel top w,
  same_visit
    (walk (P := posix_platform) no_edit true onerror followlinks fuel top w)
    (walk (P := posix_platform) no_edit false onerror followlinks fuel top w).
Proof.
  induction fuel as [|fuel IH]; intros top w; [by repeat split|].
  cbn [walk].
  destruct (scan_entries (P := posix_platform) fuel top w)
    as [[[x|[dirs nondirs]]|] w1] eqn:Hs;
    [destruct x; by repeat split| |by repeat split].
  pose proof (PosixWalk.scan_entries_dir_like _ _ _ _ _ _ Hs) as Hd.
  destruct (resolve_unedited dirs Hd) as (ds & Hr & Hm & Hds).
  unfold no_edit at 1. simpl fst. simpl snd.
  change (@p_name posix_platform) with name in *.
  rewrite Hr.
  destruct (walk_dirs_same_visit followlinks _ _ top IH ds dirs w1 Hm Hds Hd)
    as (Hw & He & Hp).
  destruct (walk_dirs (P := posix_platform) followlinks
              (walk (P := posix_platform) no_edit true onerror followlinks
                    fuel) top ds w1) as [[evs1 e1] w2].
  destruct (walk_dirs (P := posix_platform) followlinks
              (walk (P := posix_platform) no_edit false onerror followlinks
                    fuel) top dirs w1) as [[evs2 e2] w2'].
  simpl in Hw, He, Hp. subst w2' e2.
  destruct e1; simpl; repeat split; try discriminate.
  intros _. rewrite (Hp eq_refl). apply Permutation_cons_append.
Qed.

End PosixOrders.

(** X13.  On POSIX, walking a tree top-down (with a consumer that edits
    nothing) and walking it bottom-up make the same native calls and end the
    same way; when they end by exhausting the tree they produce the same
    triples and the same handler calls, only in another order. *)
Theorem posix_walk_orders_visit_the_same
        (onerror : option (oserror -> option exn)) (followlinks : bool)
        (fuel : nat) (top : string) (w : Posix.world) :
  let td := walk (P := posix_platform) no_edit true onerror followlinks
                 fuel top w in
  let bu := walk (P := posix_platform) no_edit false onerror followlinks
                 fuel top w in
  td.2 = bu.2 /\ td.1.2 = bu.1.2
  /\ (td.1.2 = Finished -> td.1.1 ≡ₚ bu.1.1).
Proof. apply PosixOrders.walk_same_visit. Qed.

(** ** Sorting entries without a type hint *)
Module FallbackScan.
Import Fallback FallbackSorting.

Lemma fb_isdir_fresh path n w :
  isdir (DirEntry_init path n) w
  = (is_dir_in w path n,
     mkDirEntry path n
       match w_lstat w (Posix.join path n) with
       | inr st => Some st
       | inl _ => None
       end,
     log (Lstat (Posix.join path n)) w).
Proof.
  unfold isdir, classify, lstat, os_lstat, is_dir_in. simpl.
  destruct (w_lstat w (Posix.join path n)); done.
Qed.

Lemma sort_names path : forall names dirs nondirs w fuel,
  (length names < fuel)%nat ->
  exists D F w',
    for_each (P := fallback_platform) sort_entry fuel (ScanIter path names)
             (dirs, nondirs) w
    = (Some (inr ((dirs ++ D)%list, (nondirs ++ F)%list)), w')
    /\ map name D = List.filter (is_dir_in w path) names
    /\ map name F = List.filter (fun n => negb (is_dir_in w path n)) names
    /\ Forall (fun e => is_Some (_lstat e)) D
    /\ lstats w' = (lstats w + length names)%nat
    /\ w_lstat w' = w_lstat w.
Proof.
  induction names as [|n names IH]; intros dirs nondirs w fuel Hf;
    (destruct fuel as [|fuel]; [simpl in Hf; lia|]).
  - exists [], [], w. simpl. rewrite !app_nil_r.
    repeat split; try done; unfold lstats; simpl; lia.
  - cbn [for_each].
    change (@p_next fallback_platform (ScanIter path (n :: names)) w)
      with (Yielded (DirEntry_init path n), ScanIter path names, w).
    cbv iota beta. unfold sort_entry at 1.
    change (@p_isdir fallback_platform (DirEntry_init path n) w)
      with (isdir (DirEntry_init path n) w).
    rewrite fb_isdir_fresh. set (w1 := log _ w). set (e1 := mkDirEntry _ _ _).
    assert (Hsame : forall m, is_dir_in w1 path m = is_dir_in w path m)
      by done.
    destruct (is_dir_in w path n) eqn:Hn.
    + destruct (IH (dirs ++ [e1])%list nondirs w1 fuel)
        as (D & F & w' & Heq & HD & HF & Hc & Hl & Hs);
        [simpl in Hf; lia|].
      exists (e1 :: D), F, w'. split; [|split; [|split; [|split; [|split]]]].
      * etrans; [exact Heq|]. now rewrite <- app_assoc.
      * simpl. rewrite Hn. simpl. f_equal. rewrite HD.
        apply List.filter_ext. exact Hsame.
      * simpl. rewrite Hn. simpl. rewrite HF.
        apply List.filter_ext. intros m. now rewrite Hsame.
      * constructor; [|exact Hc]. subst e1. simpl.
        unfold is_dir_in in Hn.
        destruct (w_lstat w (Posix.join path n)); [discriminate|by eexists].
      * rewrite Hl. subst w1. unfold lstats. simpl. lia.
      * rewrite Hs. done.
    + destruct (IH dirs (nondirs ++ [e1])%list w1 fuel)
        as (D & F & w' & Heq & HD & HF & Hc & Hl & Hs);
        [simpl in Hf; lia|].
      exists D, (e1 :: F), w'. split; [|split; [|split; [|split; [|split]]]].
      * etrans; [exact Heq|]. now rewrite <- app_assoc.
      * simpl. rewrite Hn. rewrite HD.
        apply List.filter_ext. exact Hsame.
      * simpl. rewrite Hn. simpl. f_equal. rewrite HF.
        apply List.filter_ext. intros m. now rewrite Hsame.
      * exact Hc.
      * rewrite Hl. subst w1. unfold lstats. simpl. lia.
      * rewrite Hs. done.
Qed.

End FallbackScan.

(** X14.  On the fallback branch, which has no type hint, sorting the
    entries of a directory costs exactly one [os.lstat] per name that
    [os.listdir] returned: an entry goes to the directories when [lstat] of
    its path reports a directory, and to the others when it reports
    anything else or fails; every entry that went to the directories has its
    status cached. *)
Theorem fallback_scan_queries_every_entry_once
        (w : Fallback.world) (top : string) (names : list string)
        (fuel : nat) :
  Fallback.w_listdir w top = inr names ->
  (length names + 1 < fuel)%nat ->
  exists dirs nondirs w',
    scan_entries (P := fallback_platform) fuel top w
    = (Some (inr (dirs, nondirs)), w')
    /\ map Fallback.name dirs
       = List.filter (FallbackSorting.is_dir_in w top) names
    /\ map Fallback.name nondirs
       = List.filter (fun n => negb (FallbackSorting.is_dir_in w top n)) names
    /\ Forall (fun e => is_Some (Fallback._lstat e)) dirs
    /\ FallbackSorting.lstats w'
       = (FallbackSorting.lstats w + length names)%nat.
Proof.
  intros Ho Hf. destruct fuel as [|fuel]; [lia|].
  unfold scan_entries. cbn [for_each].
  change (@p_next fallback_platform (@p_scandir fallback_platform top) w)
    with (Fallback.scandir_next (Fallback.ScanStart top) w).
  cbn [Fallback.scandir_next]. unfold Fallback.os_listdir. simpl.
  rewrite Ho.
  set (w1 := Fallback.log (Fallback.Listdir top) w).
  destruct (FallbackScan.sort_names top names [] [] w1 (S fuel))
    as (D & F & w' & Heq & HD & HF & Hc & Hl & Hs); [lia|].
  exists D, F, w'.
  split; [|split; [exact HD|split; [exact HF|split; [exact Hc|exact Hl]]]].
  exact Heq.
Qed.

Lemma fallback_scan_queries_every_entry_once_witness :
  exists dirs nondirs w',
    scan_entries (P := fallback_platform) 4 "root" Examples.fb_world
    = (Some (inr (dirs, nondirs)), w')
    /\ map Fallback.name dirs = ["a"]
    /\ map Fallback.name nondirs = ["f.txt"]
    /\ Forall (fun e => is_Some (Fallback._lstat e)) dirs
    /\ FallbackSorting.lstats w' = 2%nat.
Proof.
  refine (fallback_scan_queries_every_entry_once Examples.fb_world "root"
            _ 4 eq_refl _).
  simpl. lia.
Defined.
